(** * Recurrences: parser, normalizer, solver and formatter

    A shallow embedding of the Python package [recurrences]
    ([types.py], [utils.py], [parser.py], [solver.py], [formatter.py]).

    Modelling conventions.
    - Python floats are modelled by exact rationals [Q]; the positive
      infinity produced by the solver is a separate constructor of [flt].
      Decimal literals such as [1e-12] denote the rational they name.
    - Strings are Rocq [string]s over ASCII.  On ASCII, the regex classes
      [\p{L}], [\p{N}] and [\d] are the letters and the decimal digits.
    - Raised exceptions ([ParseError], [ValueError]) are [None].
    - The numerical primitives that come from numpy and scipy
      ([np.exp (-d * np.log x)], [math.log], [math.exp], and the two
      [root_scalar] methods) are parameters of the solver sections. *)

From Stdlib Require Import ZArith QArith Qround Qabs Lia Lqa List Bool Ascii String.
Import ListNotations.
Open Scope Q_scope.

(* ------------------------------------------------------------------ *)
(** ** types.py *)

Record FunctionTerm := mkFT {
  coef : Q;
  func : string;
  vars : list string;
  shifts : list Q
}.

Inductive Term :=
| FT (t : FunctionTerm)
| CT (c : Q).

Record Recurrence := mkRec {
  lhs : FunctionTerm;
  rhs : list Term
}.

(** [FunctionTerm.__post_init__]: lengths of [vars] and [shifts] agree. *)
Definition FunctionTerm_new (c : Q) (f : string) (vs : list string) (ss : list Q)
  : option FunctionTerm :=
  if Nat.eqb (List.length vs) (List.length ss) then Some (mkFT c f vs ss) else None.

(** [Recurrence.__post_init__]: [lhs.coef == 1] and every lhs shift is 0. *)
Definition Recurrence_new (l : FunctionTerm) (r : list Term) : option Recurrence :=
  if negb (Qeq_bool (coef l) 1) then None
  else if existsb (fun s => negb (Qeq_bool s 0)) (shifts l) then None
  else Some (mkRec l r).

(** Result of the solver: a float, possibly [inf]. *)
Inductive flt :=
| Fin (q : Q)
| PInf.

(** [PENALTY: Final[float] = 1e6] *)
Definition PENALTY : Q := 1000000.

(** The literal [1e-12]. *)
Definition eps12 : Q := 1 # (10 ^ 12).

(** Strict comparison [x < y] on floats. *)
Definition Qltb (x y : Q) : bool := negb (Qle_bool y x).

(* ------------------------------------------------------------------ *)
(** ** Character classes and string helpers *)

Definition is_digit (c : ascii) : bool :=
  let n := nat_of_ascii c in (48 <=? n)%nat && (n <=? 57)%nat.

Definition is_letter (c : ascii) : bool :=
  let n := nat_of_ascii c in
  ((65 <=? n)%nat && (n <=? 90)%nat) || ((97 <=? n)%nat && (n <=? 122)%nat).

(** [[\p{L}\p{N}_{}]] *)
Definition is_ident_char (c : ascii) : bool :=
  is_letter c || is_digit c || Ascii.eqb c "_" || Ascii.eqb c "{" || Ascii.eqb c "}".

(** [\s] on ASCII: [str.isspace], i.e. 9-13, 28-32. *)
Definition is_space (c : ascii) : bool :=
  let n := nat_of_ascii c in
  ((9 <=? n)%nat && (n <=? 13)%nat) || ((28 <=? n)%nat && (n <=? 32)%nat).

Definition digit_val (c : ascii) : Z := Z.of_nat (nat_of_ascii c - 48).

Fixpoint str_filter (p : ascii -> bool) (s : string) : string :=
  match s with
  | EmptyString => EmptyString
  | String c r => if p c then String c (str_filter p r) else str_filter p r
  end.

Fixpoint str_all (p : ascii -> bool) (s : string) : bool :=
  match s with
  | EmptyString => true
  | String c r => p c && str_all p r
  end.

Fixpoint str_mem (c : ascii) (s : string) : bool :=
  match s with
  | EmptyString => false
  | String d r => Ascii.eqb c d || str_mem c r
  end.

Fixpoint str_rev (s : string) : string :=
  match s with
  | EmptyString => EmptyString
  | String c r => str_rev r ++ String c EmptyString
  end.

(** [s.split(sep)] for a one-character separator. *)
Fixpoint split_char (sep : ascii) (s : string) : list string :=
  match s with
  | EmptyString => [EmptyString]
  | String c r =>
      if Ascii.eqb c sep then EmptyString :: split_char sep r
      else match split_char sep r with
           | x :: xs => String c x :: xs
           | [] => [String c EmptyString]
           end
  end.

(** [sep.join(xs)] *)
Fixpoint join (sep : string) (xs : list string) : string :=
  match xs with
  | [] => EmptyString
  | [x] => x
  | x :: xs' => x ++ sep ++ join sep xs'
  end.

(** [s.rstrip(ch)] for a single character. *)
Fixpoint lstrip_char (ch : ascii) (s : string) : string :=
  match s with
  | String c r => if Ascii.eqb c ch then lstrip_char ch r else s
  | EmptyString => EmptyString
  end.

Definition rstrip_char (ch : ascii) (s : string) : string :=
  str_rev (lstrip_char ch (str_rev s)).

(** [s.replace(old, new)]: left to right, non-overlapping. *)
Fixpoint replace_fuel (fuel : nat) (old new s : string) : string :=
  match fuel with
  | O => s
  | S k =>
      match s with
      | EmptyString => EmptyString
      | String c r =>
          if String.prefix old s
          then new ++ replace_fuel k old new (substring (String.length old)
                                                  (String.length s) s)
          else String c (replace_fuel k old new r)
      end
  end.

Definition str_replace (old new s : string) : string :=
  replace_fuel (String.length s) old new s.

(* ------------------------------------------------------------------ *)
(** ** Decimal numbers *)

(** Scan a maximal run of digits: its value, its length and the rest. *)
Fixpoint scan_digits (s : string) (acc : Z) (n : nat) : Z * nat * string :=
  match s with
  | String c r => if is_digit c then scan_digits r (10 * acc + digit_val c)%Z (S n)
                  else (acc, n, s)
  | EmptyString => (acc, n, s)
  end.

(** Match [\d+(?:\.\d+)?] at the start of [s] (greedy, as the regex
    engine settles it): the value and the remaining input. *)
Definition scan_unsigned (s : string) : option (Q * string) :=
  match scan_digits s 0 0 with
  | (_, O, _) => None
  | (ip, _, rest) =>
      match rest with
      | String "." r =>
          match scan_digits r 0 0 with
          | (_, O, _) => Some (inject_Z ip, rest)
          | (fp, k, rest') =>
              Some (inject_Z ip + (fp # Z.to_pos (10 ^ Z.of_nat k)), rest')
          end
      | _ => Some (inject_Z ip, rest)
      end
  end.

(** Match [-?\d+(?:\.\d+)?] at the start of [s]; the value is [float(...)]. *)
Definition scan_number (s : string) : option (Q * string) :=
  match s with
  | String "-" r =>
      match scan_unsigned r with
      | Some (v, rest) => Some (- v, rest)
      | None => None
      end
  | _ => scan_unsigned s
  end.

(** [NUMBER_PATTERN = ^-?\d+(?:\.\d+)?$] with [float()] of the match,
    read exactly: the value is the rational the digits denote.  Python's
    [float()] rounds it to the nearest double and gives [inf] past the
    largest double (about [1.8e308]); neither the rounding nor the overflow
    is modelled, so the model agrees with Python on numerals whose values
    are doubles. *)
Definition parse_number (s : string) : option Q :=
  match scan_number s with
  | Some (v, EmptyString) => Some v
  | _ => None
  end.

(** [IDENTIFIER_PATTERN = ^[\p{L}][\p{L}\p{N}_{}]*$] *)
Definition is_valid_identifier (s : string) : bool :=
  match s with
  | String c r => is_letter c && str_all is_ident_char r
  | EmptyString => false
  end.

(* ------------------------------------------------------------------ *)
(** ** parser.py *)

(** [_split_rhs]: split on ['+'] at parenthesis depth 0, dropping empty
    buffers. *)
Fixpoint split_rhs_go (s : string) (depth : nat) (buf : string) : list string :=
  match s with
  | EmptyString => if String.eqb buf "" then [] else [buf]
  | String ch r =>
      if Ascii.eqb ch "(" then split_rhs_go r (S depth) (buf ++ String ch "")
      else if Ascii.eqb ch ")" then split_rhs_go r (Nat.pred depth) (buf ++ String ch "")
      else if Ascii.eqb ch "+" && Nat.eqb depth 0 then
        (if String.eqb buf "" then [] else [buf]) ++ split_rhs_go r depth ""
      else split_rhs_go r depth (buf ++ String ch "")
  end.

Definition split_rhs (s : string) : list string := split_rhs_go s 0 "".

(** Split at the first occurrence of [c]: the text before and after it. *)
Fixpoint split_first (c : ascii) (s : string) : option (string * string) :=
  match s with
  | EmptyString => None
  | String d r =>
      if Ascii.eqb d c then Some (EmptyString, r)
      else match split_first c r with
           | Some (a, b) => Some (String d a, b)
           | None => None
           end
  end.

(** [s] is [body ++ ")"] with no closing parenthesis in [body]: the tail
    of the regexes that reads the argument text up to the final [")"]. *)
Definition close_paren (s : string) : option string :=
  match str_rev s with
  | String ")" b => let body := str_rev b in
                   if str_mem ")" body then None else Some body
  | _ => None
  end.

(** The LHS regex of [parse_recurrence]: one or more characters other
    than ["("], then ["("], the argument text, and a final [")"]. *)
Definition lhs_match (s : string) : option (string * string) :=
  match split_first "(" s with
  | Some (name, rest) =>
      if String.eqb name "" then None
      else match close_paren rest with
           | Some body => Some (name, body)
           | None => None
           end
  | None => None
  end.

(** Maximal run of [[\p{L}\p{N}_{}]] characters. *)
Fixpoint scan_ident_chars (s : string) : string * string :=
  match s with
  | String c r => if is_ident_char c
                  then let (a, b) := scan_ident_chars r in (String c a, b)
                  else (EmptyString, s)
  | EmptyString => (EmptyString, EmptyString)
  end.

(** An identifier followed by the parenthesised argument text: name and args. *)
Definition match_call (s : string) : option (string * string) :=
  match s with
  | String c r =>
      if is_letter c then
        let (name_tl, rest) := scan_ident_chars r in
        match rest with
        | String "(" rest' =>
            match close_paren rest' with
            | Some body => Some (String c name_tl, body)
            | None => None
            end
        | _ => None
        end
      else None
  | EmptyString => None
  end.

(** The term regex of [_parse_term] (an optional [-?\d+(?:\.\d+)?]
    coefficient, an optional ["*"], an identifier, the parenthesised
    argument text): the optional coefficient, the function name and the
    argument text.  A coefficient
    can only start with ['-'] or a digit, which an identifier cannot, so
    the regex settles on the greedy reading below. *)
Definition term_match (s : string) : option (option Q * string * string) :=
  match s with
  | String c _ =>
      if is_letter c then
        match match_call s with
        | Some (n, a) => Some (None, n, a)
        | None => None
        end
      else
        match scan_number s with
        | Some (v, rest) =>
            let rest' := match rest with String "*" r => r | _ => rest end in
            match match_call rest' with
            | Some (n, a) => Some (Some v, n, a)
            | None => None
            end
        | None => None
        end
  | EmptyString => None
  end.

(** [_parse_shift]: [^{var}([+-]\d+(?:\.\d+)?)?$]. *)
Definition parse_shift (arg var : string) : option Q :=
  if String.prefix var arg then
    match substring (String.length var) (String.length arg) arg with
    | EmptyString => Some 0
    | String sg r =>
        if Ascii.eqb sg "+" || Ascii.eqb sg "-" then
          match scan_unsigned r with
          | Some (v, EmptyString) => Some (if Ascii.eqb sg "-" then - v else v)
          | _ => None
          end
        else None
    end
  else None.

Fixpoint parse_shifts (args vs : list string) : option (list Q) :=
  match args, vs with
  | [], [] => Some []
  | a :: args', v :: vs' =>
      match parse_shift a v, parse_shifts args' vs' with
      | Some s, Some ss => Some (s :: ss)
      | _, _ => None
      end
  | _, _ => None
  end.

(** [_parse_term] *)
Definition parse_term (summand f : string) (vars_list : list string) : option Term :=
  match parse_number summand with
  | Some v => Some (CT v)
  | None =>
      match term_match summand with
      | Some (coef_str, fn_name, args_str) =>
          let c := match coef_str with Some v => v | None => 1 end in
          if negb (is_valid_identifier fn_name) then None
          else if negb (String.eqb fn_name f) then None
          else
            let args_raw := split_char "," args_str in
            if negb (Nat.eqb (List.length args_raw) (List.length vars_list)) then None
            else match parse_shifts args_raw vars_list with
                 | Some ss =>
                     match FunctionTerm_new c f vars_list ss with
                     | Some t => Some (FT t)
                     | None => None
                     end
                 | None => None
                 end
      | None => None
      end
  end.

Fixpoint parse_terms (summands : list string) (f : string) (vs : list string)
  : option (list Term) :=
  match summands with
  | [] => Some []
  | s :: ss =>
      match parse_term s f vs, parse_terms ss f vs with
      | Some t, Some ts => Some (t :: ts)
      | _, _ => None
      end
  end.

(** Tuple equality of shift vectors: same length, elementwise float [==]. *)
Fixpoint shifts_eqb (a b : list Q) : bool :=
  match a, b with
  | [], [] => true
  | x :: a', y :: b' => Qeq_bool x y && shifts_eqb a' b'
  | _, _ => false
  end.

(** [function_map[key] = function_map.get(key, 0.0) + term.coef]: an
    insertion-ordered dict; an existing entry keeps its original key. *)
Fixpoint fmap_add (m : list (list Q * Q)) (k : list Q) (c : Q) : list (list Q * Q) :=
  match m with
  | [] => [(k, 0 + c)]
  | (k', v) :: m' =>
      if shifts_eqb k' k then (k', v + c) :: m' else (k', v) :: fmap_add m' k c
  end.

(** The first loop of [_combine_terms]: [(constant_sum, function_map)]. *)
Fixpoint combine_loop (ts : list Term) (cs : Q) (m : list (list Q * Q))
  : Q * list (list Q * Q) :=
  match ts with
  | [] => (cs, m)
  | CT c :: ts' => combine_loop ts' (cs + c) m
  | FT t :: ts' => combine_loop ts' cs (fmap_add m (shifts t) (coef t))
  end.

(** The second loop: one [FunctionTerm] per entry whose coefficient is not
    below [1e-12] in magnitude. *)
Fixpoint emit_functions (m : list (list Q * Q)) (vars_list : list string) (f : string)
  : option (list Term) :=
  match m with
  | [] => Some []
  | (k, c) :: m' =>
      if Qltb (Qabs c) eps12 then emit_functions m' vars_list f
      else match FunctionTerm_new c f vars_list k, emit_functions m' vars_list f with
           | Some t, Some ts => Some (FT t :: ts)
           | _, _ => None
           end
  end.

(** [_combine_terms] *)
Definition combine_terms (raw_terms : list Term) (vars_list : list string) (f : string)
  : option (list Term) :=
  let (constant_sum, function_map) := combine_loop raw_terms 0 [] in
  let head := if Qltb eps12 (Qabs constant_sum) then [CT constant_sum] else [] in
  match emit_functions function_map vars_list f with
  | Some ts => Some (head ++ ts)
  | None => None
  end.

(** The LHS variable names: each valid and not seen before. *)
Fixpoint check_vars (raw : list string) (acc : list string) : option (list string) :=
  match raw with
  | [] => Some acc
  | a :: raw' =>
      if negb (is_valid_identifier a) then None
      else if existsb (String.eqb a) acc then None
      else check_vars raw' (acc ++ [a])
  end.

(** [parse_recurrence] up to the call of [_combine_terms]: the function
    name, the variables and the raw RHS terms. *)
Definition parse_raw (text : string)
  : option (string * list string * list Term) :=
  let cleaned := str_filter (fun c => negb (is_space c)) text in
  if String.eqb cleaned "" then None else
  match split_char "=" cleaned with
  | [lhs_str; rhs_str] =>
      if String.eqb lhs_str "" then None else
      if String.eqb rhs_str "" then None else
      match lhs_match lhs_str with
      | None => None
      | Some (f, raw_args_str) =>
          if negb (is_valid_identifier f) then None else
          let raw_args := filter (fun a => negb (String.eqb a "")) (split_char "," raw_args_str) in
          if Nat.eqb (List.length raw_args) 0 then None else
          match check_vars raw_args [] with
          | None => None
          | Some vars_list =>
              let summands := filter (fun t => negb (String.eqb t "")) (split_rhs rhs_str) in
              if Nat.eqb (List.length summands) 0 then None else
              let raw_terms :=
                match summands with
                | [s] => match parse_number s with
                         | Some v => Some [CT v]
                         | None => parse_terms summands f vars_list
                         end
                | _ => parse_terms summands f vars_list
                end in
              match raw_terms with
              | Some rt => Some (f, vars_list, rt)
              | None => None
              end
          end
      end
  | _ => None
  end.

(** [parse_recurrence] *)
Definition parse_recurrence (text : string) : option Recurrence :=
  match parse_raw text with
  | None => None
  | Some (f, vars_list, raw_terms) =>
      match FunctionTerm_new 1 f vars_list (repeat 0 (List.length vars_list)) with
      | None => None
      | Some l =>
          match combine_terms raw_terms vars_list f with
          | Some terms => Recurrence_new l terms
          | None => None
          end
      end
  end.

(* ------------------------------------------------------------------ *)
(** ** utils.py *)

(** [int(x)] on a float: truncation toward zero. *)
Definition py_int (x : Q) : Z := if Qle_bool 0 x then Qfloor x else Qceiling x.

Definition digit_char (d : Z) : ascii := ascii_of_nat (48 + Z.to_nat d).

(** Decimal digits of [n > 0], prepended to [acc]. *)
Fixpoint digits_go (fuel : nat) (n : Z) (acc : string) : string :=
  match fuel with
  | O => acc
  | S k =>
      let acc' := String (digit_char (n mod 10)) acc in
      if (n <? 10)%Z then acc' else digits_go k (n / 10) acc'
  end.

Definition nat_digits (n : Z) : string := digits_go (S (Z.to_nat (Z.log2 n))) n "".

(** [str(n)] for a Python int. *)
Definition Z_to_string (n : Z) : string :=
  if (n <? 0)%Z then "-" ++ nat_digits (- n) else nat_digits n.

Fixpoint zeros (k : nat) : string :=
  match k with
  | O => ""
  | S k' => String "0" (zeros k')
  end.

(** Left padding with ['0'] to width [w]. *)
Definition pad_left (w : nat) (s : string) : string := zeros (w - String.length s) ++ s.

(** [f"{n / 10**d:.{d}f}"] for an integer [n]: the float [n / 10**d] printed
    with [d] decimals gives back the digits of [n]. *)
Definition fixed_point (n : Z) (d : nat) : string :=
  let p := (10 ^ Z.of_nat d)%Z in
  let a := Z.abs n in
  (if (n <? 0)%Z then "-" else "")
    ++ Z_to_string (a / p) ++ "." ++ pad_left d (Z_to_string (a mod p)).

(** [format_number(x, digits=5)] on a finite float: round up at 5 decimals,
    print with 5 decimals, strip trailing zeros and then the point.  The
    product [x * 10**5] is taken exactly: Python's floating-point product
    can round up ([1.1 * 10**5] is [110000.00000000001], printed
    ["1.10001"]) and [math.ceil] raises [OverflowError] once it is [inf]
    (from about [1.8e303]); the model agrees with Python when the product
    is computed exactly and is finite. *)
Definition format_number (x : Q) : string :=
  let factor := inject_Z (10 ^ 5) in
  let n := Qceiling (x * factor) in
  let formatted := fixed_point n 5 in
  rstrip_char "." (rstrip_char "0" formatted).

(** Python's [round(v)] of a float to an integer: half to even. *)
Definition round_half_even (q : Q) : Z :=
  let f := Qfloor q in
  let d := q - inject_Z f in
  if Qltb d (1 # 2) then f
  else if Qltb (1 # 2) d then (f + 1)%Z
  else if Z.even f then f else (f + 1)%Z.

(** [round(val, 6)] *)
Definition round6 (v : Q) : Q := round_half_even (v * inject_Z (10 ^ 6)) # (10 ^ 6).

(** [snap_int(val, ndigits=6)] on a finite float. *)
Definition snap_int (v : Q) : Q :=
  let rounded := round6 v in
  if Qeq_bool rounded (inject_Z (py_int rounded)) then inject_Z (py_int rounded)
  else rounded.

(* ------------------------------------------------------------------ *)
(** ** formatter.py *)

Open Scope string_scope.

(** [_format_constant] *)
Definition format_constant (c : Q) : string :=
  if Qeq_bool c (inject_Z (py_int c)) then Z_to_string (py_int c) else format_number c.

(** One argument of [_format_function_term]. *)
Definition format_arg (v : string) (s : Q) : string :=
  if Qeq_bool s 0 then v
  else if Qltb s 0 then v ++ "-" ++ format_constant (- s)
  else v ++ "+" ++ format_constant s.

(** [_format_function_term] *)
Definition format_function_term (t : FunctionTerm) : string :=
  let coef_str :=
    if Qeq_bool (coef t) 1 then ""
    else if Qeq_bool (coef t) (-1) then "-"
    else format_constant (coef t) ++ "*" in
  coef_str ++ func t ++ "(" ++ join ", " (map (fun '(v, s) => format_arg v s)
                                              (combine (vars t) (shifts t))) ++ ")".

Definition format_term (t : Term) : string :=
  match t with
  | CT c => format_constant c
  | FT f => format_function_term f
  end.

(** [format_recurrence] *)
Definition format_recurrence (rec : Recurrence) : string :=
  let l := func (lhs rec) ++ "(" ++ join ", " (vars (lhs rec)) ++ ")" in
  match rhs rec with
  | [] => l ++ " = 0"
  | ts =>
      let r := join " + " (map format_term ts) in
      let r := str_replace " + -" " - " r in
      l ++ " = " ++ r
  end.

(** [format_asymptotics]; [None] is the [ValueError] for several variables. *)
Definition format_asymptotics (rec : Recurrence) (root : flt) : option string :=
  match vars (lhs rec) with
  | [v] =>
      match root with
      | PInf => Some "O(∞)"
      | Fin q =>
          if Qeq_bool q 1 then Some "O(1)"
          else Some ("O(" ++ format_number q ++ "^" ++ v ++ ")")
      end
  | _ => None
  end.

Close Scope string_scope.

(* ------------------------------------------------------------------ *)
(** ** solver.py *)

(** What a call of [scipy.optimize.root_scalar] ends in. *)
Inductive outcome :=
| Converged (r : Q)   (* [sol.converged] and [sol.root = r] *)
| NotConverged        (* [not sol.converged] *)
| Raised.             (* an exception, e.g. no sign change on the bracket *)

Definition qmin (a b : Q) : Q := if Qle_bool a b then a else b.
Definition qmax (a b : Q) : Q := if Qle_bool a b then b else a.

(** [np.min] of a non-empty array. *)
Definition np_min (d : list Q) : Q :=
  match d with
  | [] => 0
  | x :: xs => fold_left qmin xs x
  end.

Fixpoint opt_map {A B} (f : A -> option B) (l : list A) : option (list B) :=
  match l with
  | [] => Some []
  | x :: l' =>
      match f x, opt_map f l' with
      | Some y, Some ys => Some (y :: ys)
      | _, _ => None
      end
  end.

Fixpoint func_terms (ts : list Term) : list FunctionTerm :=
  match ts with
  | [] => []
  | FT t :: ts' => t :: func_terms ts'
  | CT _ :: ts' => func_terms ts'
  end.

(** [-term.shifts[0]]; an empty [shifts] raises [IndexError]. *)
Definition first_delta (t : FunctionTerm) : option Q :=
  match shifts t with
  | s :: _ => Some (- s)
  | [] => None
  end.

Section Solver.

(** [np.exp(-d * np.log(x))] for [x > 0]; [None] when it is not finite. *)
Variable xpow : Q -> Q -> option Q.
(** [root_scalar(g, bracket=(a, b), method="brentq")] *)
Variable brentq : (Q -> option Q) -> Q -> Q -> outcome.
(** [root_scalar(g, fprime=gp, method="newton", x0=x0, maxiter=20)] *)
Variable newton : (Q -> option Q) -> (Q -> option Q) -> Q -> outcome.
(** [math.log] and [math.exp] *)
Variable flog : Q -> Q.
Variable fexp : Q -> Q.

(** [sum_j coef_j * x^(-delta_j)]: [None] when a term is not finite. *)
Fixpoint weighted_sum (cs ds : list Q) (x : Q) : option Q :=
  match cs, ds with
  | c :: cs', d :: ds' =>
      match xpow x d, weighted_sum cs' ds' x with
      | Some t, Some s => Some (c * t + s)
      | _, _ => None
      end
  | _, _ => Some 0
  end.

(** The local [g] of [solve_recurrence]. *)
Definition g_rec (cs ds : list Q) (x : Q) : option Q :=
  if Qle_bool x 0 then None
  else match weighted_sum cs ds x with
       | Some s => Some (s - 1)
       | None => None
       end.

(** [np.isfinite(fb) and fb <= 0] *)
Definition nonpos (fb : option Q) : bool :=
  match fb with Some v => Qle_bool v 0 | None => false end.

(** The upper-bracket loop of [solve_recurrence]: [b = 2.0], then for at
    most 50 rounds stop at [g(b) <= 0] or double [b], giving up past [1e12]. *)
Fixpoint find_bracket (g : Q -> option Q) (fuel : nat) (b : Q) : option Q :=
  match fuel with
  | O => None
  | S k =>
      if nonpos (g b) then Some b
      else let b' := b * 2 in
           if Qltb (inject_Z (10 ^ 12)) b' then None else find_bracket g k b'
  end.

(** [solve_recurrence] after the extraction of coefficients and deltas. *)
Definition solve_terms (coefs deltas : list Q) : flt :=
  match coefs with
  | [] => Fin 1
  | _ =>
      if existsb (fun d => Qle_bool d 0) deltas then Fin PENALTY else
      let g := g_rec coefs deltas in
      let bracket_phase :=
        match find_bracket g 50 2 with
        | None => Fin PENALTY
        | Some b =>
            match brentq g 1 b with
            | Converged r => Fin (snap_int r)
            | _ => Fin PENALTY
            end
        end in
      match g 1 with
      | Some g1 =>
          if Qltb (Qabs g1) eps12 then Fin 1
          else if Qltb g1 0 then Fin PENALTY
          else bracket_phase
      | None => bracket_phase
      end
  end.

(** [solve_recurrence]; [None] is a raised [ValueError] or [IndexError]. *)
Definition solve_recurrence (rec : Recurrence) : option flt :=
  match vars (lhs rec) with
  | [_] =>
      let fts := func_terms (rhs rec) in
      match opt_map first_delta fts with
      | Some deltas => Some (solve_terms (map coef fts) deltas)
      | None => None
      end
  | _ => None
  end.

(** [_eval_poly_and_derivative]: [(g(x), g'(x))], both [inf] ([None]) when
    [x <= 0] or a value is not finite. *)
Fixpoint pow_sums (ds : list Q) (x : Q) : option (Q * Q) :=
  match ds with
  | [] => Some (0, 0)
  | d :: ds' =>
      match xpow x d, pow_sums ds' x with
      | Some t, Some (s, w) => Some (t + s, d * t + w)
      | _, _ => None
      end
  end.

Definition eval_poly_and_derivative (x : Q) (ds : list Q) : option Q * option Q :=
  if Qle_bool x 0 then (None, None)
  else match pow_sums ds x with
       | Some (s, w) => (Some (s - 1), Some (- w / x))
       | None => (None, None)
       end.

(** The fallback loop of [find_root]: up to 40 doublings capped at [1e12]. *)
Fixpoint expand_bracket (g : Q -> option Q) (fuel : nat) (bb : Q) : option Q :=
  match fuel with
  | O => None
  | S k =>
      let bb' := qmin (bb * 2) (inject_Z (10 ^ 12)) in
      if nonpos (g bb') then Some bb' else expand_bracket g k bb'
  end.

(** [find_root(deltas, x0=x0)]; [None] is an exception escaping [brentq]. *)
Definition find_root (d : list Q) (x0 : option flt) : option flt :=
  match d with
  | [] => Some PInf
  | [_] => Some (Fin 1)
  | _ =>
      let min_delta := np_min d in
      if Qle_bool min_delta 0 then Some (Fin PENALTY) else
      let g := fun x => fst (eval_poly_and_derivative x d) in
      let gp := fun x => snd (eval_poly_and_derivative x d) in
      let b_cap := inject_Z (10 ^ 12) in
      let exponent := flog (inject_Z (Z.of_nat (List.length d))) / min_delta in
      let log_cap := flog (b_cap / (101 # 100)) in
      let b0 := if Qle_bool log_cap exponent then b_cap
                else qmax 2 (fexp exponent * (101 # 100)) in
      let b := if nonpos (g b0) then Some b0 else expand_bracket g 40 b0 in
      match b with
      | None => Some (Fin PENALTY)
      | Some b =>
          let robust :=
            match brentq g 1 b with
            | Converged r => Some (Fin r)
            | NotConverged => Some (Fin PENALTY)
            | Raised => None
            end in
          match x0 with
          | Some (Fin x) =>
              let x0c := qmin (qmax x 1) b in
              match newton g gp x0c with
              | Converged r =>
                  if Qle_bool 1 r && Qle_bool r (b * (1000001 # 1000000))
                  then Some (Fin r) else robust
              | _ => robust
              end
          | _ => robust
          end
      end
  end.

End Solver.

(* ------------------------------------------------------------------ *)
(** ** types.py with object identity

    The dataclasses of [types.py] are not frozen, and the lists they hold
    are the caller's own list objects.  This module models the lists as
    mutable cells of a store, so that a list shared between the caller
    and a [FunctionTerm] is one cell. *)

Module PyObjects.

Definition loc := nat.

Inductive pyval :=
| VStr (s : string)
| VNum (q : Q).

(** The store: the current contents of every list object. *)
Definition store := loc -> list pyval.

Definition upd (h : store) (l : loc) (v : list pyval) : store :=
  fun l' => if Nat.eqb l l' then v else h l'.

(** [xs.append(v)] *)
Definition list_append (h : store) (l : loc) (v : pyval) : store :=
  upd h l (h l ++ [v]).

(** [xs[i] = v]; [None] is the [IndexError] out of range. *)
Definition list_setitem (h : store) (l : loc) (i : nat) (v : pyval) : option store :=
  if (i <? List.length (h l))%nat
  then Some (upd h l (firstn i (h l) ++ v :: skipn (S i) (h l)))
  else None.

(** A [FunctionTerm] object: its [vars] and [shifts] are references. *)
Record FTObj := mkFTObj {
  o_coef : Q;
  o_func : string;
  o_vars : loc;
  o_shifts : loc
}.

Record RecObj := mkRecObj {
  r_lhs : FTObj;
  r_rhs : loc
}.

(** [FunctionTerm(coef, func, vars, shifts)] with [__post_init__]. *)
Definition FunctionTerm_init (h : store) (c : Q) (f : string) (vl sl : loc)
  : option FTObj :=
  if negb (Nat.eqb (List.length (h vl)) (List.length (h sl))) then None
  else Some (mkFTObj c f vl sl).

(** [s != 0] for an element of [lhs.shifts]. *)
Definition py_ne_zero (v : pyval) : bool :=
  match v with
  | VNum q => negb (Qeq_bool q 0)
  | VStr _ => true
  end.

(** [Recurrence(lhs, rhs)] with [__post_init__]. *)
Definition Recurrence_init (h : store) (l : FTObj) (r : loc) : option RecObj :=
  if negb (Qeq_bool (o_coef l) 1) then None
  else if existsb py_ne_zero (h (o_shifts l)) then None
  else Some (mkRecObj l r).

(** The invariants the constructors check, read in a store. *)
Definition ft_inv (h : store) (o : FTObj) : Prop :=
  List.length (h (o_vars o)) = List.length (h (o_shifts o)).

Definition rec_inv (h : store) (r : RecObj) : Prop :=
  o_coef (r_lhs r) == 1 /\
  Forall (fun v => py_ne_zero v = false) (h (o_shifts (r_lhs r))).

(** A store holding [vs = ["n"]] at 0, [shifts = [0.0]] at 1 and an
    empty list at 2. *)
Definition store0 : store :=
  fun l => match l with
           | 0%nat => [VStr "n"]
           | 1%nat => [VNum 0]
           | _ => []
           end.

End PyObjects.

(* ------------------------------------------------------------------ *)
(** ** solve_recurrence.py: the JSON report of the command-line tool *)

(** The JSON values [_output_json] builds. *)
#[warnings="-register-all"]
Inductive json :=
| JBool (b : bool)
| JStr (s : string)
| JNum (q : Q)
| JList (l : list json)
| JObj (kvs : list (string * json)).

(** [d[k] = v] on an insertion-ordered dict: an existing key keeps its place. *)
Fixpoint dict_set (d : list (string * json)) (k : string) (v : json) : list (string * json) :=
  match d with
  | [] => [(k, v)]
  | (k', v') :: d' => if String.eqb k' k then (k', v) :: d' else (k', v') :: dict_set d' k v
  end.

(** [d.get(k)] *)
Fixpoint dict_get (d : list (string * json)) (k : string) : option json :=
  match d with
  | [] => None
  | (k', v) :: d' => if String.eqb k' k then Some v else dict_get d' k
  end.

(** [_output_json(rec, root, verbose)]: the dict it prints; [None] is an
    exception ([rec.lhs.vars[0]] out of range, or the [ValueError] of
    [format_asymptotics]). *)
Definition output_json (rec : Recurrence) (root : flt) (verbose : bool)
  : option (list (string * json)) :=
  let is_divergent := match root with PInf => true | Fin _ => false end in
  let is_invalid := match root with PInf => true | Fin q => Qle_bool PENALTY q end in
  let result := [("ok"%string, JBool true)] in
  let result :=
    if is_divergent then Some (dict_set result "divergent" (JBool true))
    else if is_invalid then
      Some (dict_set (dict_set result "ok" (JBool false))
                     "error" (JStr "No valid root found (non-positive shifts)"))
    else
      match vars (lhs rec), root with
      | v :: _, Fin q =>
          match format_asymptotics rec root with
          | Some a =>
              Some (dict_set (dict_set (dict_set result "divergent" (JBool false))
                                       "root" (JObj [(v, JNum q)]))
                             "asymptotics" (JStr a))
          | None => None
          end
      | _, _ => None
      end in
  match result with
  | None => None
  | Some result =>
      Some (if verbose
            then dict_set (dict_set (dict_set result "recurrence" (JStr (format_recurrence rec)))
                                    "function" (JStr (func (lhs rec))))
                          "variables" (JList (map JStr (vars (lhs rec))))
            else result)
  end.

Section OutputText.

(** [str(root)] of a float (Python's shortest round-trip [repr]). *)
Variable float_str : Q -> string.

(** [_output_text(rec, root, verbose)]: the lines it prints to stdout, and
    [false] when it stops on an exception ([rec.lhs.vars[0]] out of range,
    or the [ValueError] of [format_asymptotics]); the lines printed before
    the exception stay printed. *)
Definition output_text (rec : Recurrence) (root : flt) (verbose : bool) : list string * bool :=
  let header :=
    if verbose then
      match vars (lhs rec) with
      | v :: _ => (["Recurrence: " ++ format_recurrence rec; "Function:   " ++ func (lhs rec);
                    "Variable:   " ++ v]%string, true)
      | [] => (["Recurrence: " ++ format_recurrence rec; "Function:   " ++ func (lhs rec)]%string,
               false)
      end
    else ([], true) in
  let is_divergent := match root with PInf => true | Fin _ => false end in
  let is_invalid := match root with PInf => true | Fin q => Qle_bool PENALTY q end in
  match header with
  | (hd, false) => (hd, false)
  | (hd, true) =>
      if is_divergent then (hd ++ ["Result: Divergent (infinite growth)"%string], true)
      else if is_invalid then
        (hd ++ ["Result: No valid root (check for non-positive shifts)"%string], true)
      else
        match root with
        | Fin q =>
            if verbose then
              let hd := hd ++ ["Root:       " ++ float_str q]%string in
              match format_asymptotics rec root with
              | Some a => (hd ++ ["Asymptotics: " ++ a]%string, true)
              | None => (hd, false)
              end
            else
              match format_asymptotics rec root with
              | Some a => (hd ++ [a], true)
              | None => (hd, false)
              end
        | PInf => (hd, true)  (* excluded by [is_divergent] *)
        end
  end.

End OutputText.

(* ------------------------------------------------------------------ *)
(** ** Concrete instances of the numerical primitives

    Used to run the solver on concrete inputs.  [exact_xpow] is the exact
    value of [x ** (-d)] for integer [d] (and [1] at [x = 1], where
    [np.log(1.0) = 0.0] and [np.exp(-0.0) = 1.0]); [brent_at r] is a root
    finder that converges to [r]. *)

Definition exact_xpow (x d : Q) : option Q :=
  if Qeq_bool x 1 then Some 1
  else let d' := Qred d in
       if Pos.eqb (Qden d') 1 then Some (Qpower x (- Qnum d')) else None.

Definition brent_at (r : Q) : (Q -> option Q) -> Q -> Q -> outcome :=
  fun _ _ _ => Converged r.

(** [x ** (-d)] as a function of [x > 0]: finite, positive and decreasing. *)
Definition decreasing_power (xpow : Q -> Q -> option Q) (d : Q) : Prop :=
  (forall x, 0 < x -> exists t, xpow x d = Some t /\ 0 < t) /\
  (forall x y t u, 0 < x -> x <= y -> xpow x d = Some t -> xpow y d = Some u -> u <= t) /\
  (forall x y t u, 0 < x -> x < y -> xpow x d = Some t -> xpow y d = Some u -> u < t).

(** A root finder that converges to the first candidate in the bracket
    where [g] is exactly [0], and raises when there is none. *)
Fixpoint brent_roots (cands : list Q) (g : Q -> option Q) (a b : Q) : outcome :=
  match cands with
  | [] => Raised
  | r :: rs =>
      if Qle_bool a r && Qle_bool r b then
        match g r with
        | Some y => if Qeq_bool y 0 then Converged r else brent_roots rs g a b
        | None => brent_roots rs g a b
        end
      else brent_roots rs g a b
  end.

Definition no_newton : (Q -> option Q) -> (Q -> option Q) -> Q -> outcome :=
  fun _ _ _ => NotConverged.

(** The double nearest to the golden ratio, [1.618033988749895]. *)
Definition phi_double : Q := 910872158600853 # 562949953421312.

Definition fib_text : string := "T(n) = T(n-1) + T(n-2)".

(** The recurrence [parse_recurrence fib_text] returns. *)
Definition fib_rec : Recurrence :=
  mkRec (mkFT 1 "T" ["n"%string] [0])
        [FT (mkFT 1 "T" ["n"%string] [-1]); FT (mkFT 1 "T" ["n"%string] [-2])].

(* ------------------------------------------------------------------ *)
(** ** Specification predicates *)

(** One step of summing the coefficients of the raw terms whose shift
    vector equals [k]. *)
Definition group_step (k : list Q) (acc : Q) (t : Term) : Q :=
  match t with
  | FT t' => if shifts_eqb k (shifts t') then acc + coef t' else acc
  | CT _ => acc
  end.

(** The combined coefficient of the raw summands with shift vector [k],
    summed in input order from [0.0]. *)
Definition group_sum (raw : list Term) (k : list Q) : Q :=
  fold_left (group_step k) raw 0.

(** A normalized RHS: at most one constant, in front, then function terms
    with pairwise distinct shift vectors, each carrying the combined
    coefficient of the raw summands with its shift vector. *)
Definition rhs_normalized (raw out : list Term) : Prop :=
  exists head fts,
    out = head ++ map FT fts /\
    (head = [] \/ exists c, head = [CT c]) /\
    ForallOrdPairs (fun a b => shifts_eqb (shifts a) (shifts b) = false) fts /\
    Forall (fun t => coef t = group_sum raw (shifts t)) fts.

(** The number of occurrences of [c] in [s]. *)
Fixpoint count_char (c : ascii) (s : string) : nat :=
  match s with
  | EmptyString => O
  | String d r => if Ascii.eqb d c then S (count_char c r) else count_char c r
  end.

(** [s] without its ['+'] characters. *)
Definition drop_plus (s : string) : string := str_filter (fun c => negb (Ascii.eqb c "+")) s.

(** [sum(coefs)] *)
Definition qsum (cs : list Q) : Q := fold_right Qplus 0 cs.

(** The coefficients of the function terms of a recurrence, in order. *)
Definition rec_coefs (rec : Recurrence) : list Q := map coef (func_terms (rhs rec)).

(** The well-formed RHS terms of a parse result over [f] and [vs]. *)
Definition term_wf (f : string) (vs : list string) (t : Term) : Prop :=
  match t with
  | FT t' => func t' = f /\ vars t' = vs /\ List.length (shifts t') = List.length vs
  | CT _ => True
  end.

(** The terms [_combine_terms] emits. *)
Definition emitted_wf (f : string) (vs : list string) (t : Term) : Prop :=
  match t with
  | FT t' => func t' = f /\ vars t' = vs /\
             List.length (shifts t') = List.length vs /\ eps12 <= Qabs (coef t')
  | CT c => eps12 < Qabs c
  end.

(* ================================================================== *)
(** * Properties *)

(* ------------------------------------------------------------------ *)
(** ** Helper lemmas on booleans over [Q] *)

Lemma Qltb_iff (x y : Q) : Qltb x y = true <-> x < y.
Proof.
  unfold Qltb. rewrite negb_true_iff. split; intro H.
  - apply Qnot_le_lt. intro H'. apply Qle_bool_iff in H'. congruence.
  - destruct (Qle_bool y x) eqn:E; [|reflexivity].
    apply Qle_bool_iff in E. exfalso. apply (Qlt_not_le x y); assumption.
Qed.

Lemma Qltb_false (x y : Q) : Qltb x y = false <-> y <= x.
Proof.
  unfold Qltb. rewrite negb_false_iff. apply Qle_bool_iff.
Qed.

Lemma Qle_bool_false (x y : Q) : Qle_bool x y = false <-> y < x.
Proof.
  split; intro H.
  - apply Qnot_le_lt. intro H'. apply Qle_bool_iff in H'. congruence.
  - destruct (Qle_bool x y) eqn:E; [|reflexivity].
    apply Qle_bool_iff in E. exfalso. apply (Qlt_not_le y x); assumption.
Qed.

(* ------------------------------------------------------------------ *)
(** ** C10: the sentinel is rendered like a root *)

(** C10: for every single-variable recurrence with variable [v],
    [format_asymptotics] applied to the infeasible sentinel [1e6] returns
    ["O(1000000^v)"], the same shape as for a genuine root; there is no
    separate infeasibility marker. *)
Theorem format_asymptotics_penalty (rec : Recurrence) (v : string)
  (Hv : vars (lhs rec) = [v]) :
  format_asymptotics rec (Fin PENALTY) = Some ("O(1000000^" ++ v ++ ")")%string.
Proof.
  unfold format_asymptotics. rewrite Hv. reflexivity.
Qed.

Lemma format_asymptotics_penalty_witness :
  vars (lhs (mkRec (mkFT 1 "T" ["n"%string] [0]) [])) = ["n"%string] /\
  format_asymptotics (mkRec (mkFT 1 "T" ["n"%string] [0]) []) (Fin PENALTY)
    = Some "O(1000000^n)"%string.
Proof.
  split; [reflexivity|].
  apply (format_asymptotics_penalty (mkRec (mkFT 1 "T" ["n"%string] [0]) []) "n").
  reflexivity.
Defined.

(* ------------------------------------------------------------------ *)
(** ** C3: sentinel outcomes *)

Lemma find_root_nonpos_min xpow brentq newton flog fexp (d : list Q) x0 :
  (2 <= List.length d)%nat -> np_min d <= 0 ->
  find_root xpow brentq newton flog fexp d x0 = Some (Fin PENALTY).
Proof.
  intros Hlen Hmin.
  destruct d as [|a [|b d']]; simpl in Hlen; try lia.
  apply Qle_bool_iff in Hmin.
  unfold find_root. rewrite Hmin. reflexivity.
Qed.

(** C3: [find_root([])] is [+inf]; for every list of at least two deltas
    whose minimum is [<= 0], [find_root] returns the finite sentinel [1e6],
    which differs from [+inf]; and [solve_recurrence] on the parse of
    ["T(n) = 0.5*T(n-1)"] returns the same sentinel [1e6]. *)
Theorem sentinel_outcomes :
  forall (xpow : Q -> Q -> option Q) brentq newton flog fexp x0,
    find_root xpow brentq newton flog fexp [] x0 = Some PInf /\
    (forall d, (2 <= List.length d)%nat -> np_min d <= 0 ->
       find_root xpow brentq newton flog fexp d x0 = Some (Fin PENALTY)) /\
    Fin PENALTY <> PInf /\
    ((forall e, xpow 1 e = Some 1) ->
     match parse_recurrence "T(n) = 0.5*T(n-1)" with
     | Some rec => solve_recurrence xpow brentq rec = Some (Fin PENALTY)
     | None => False
     end).
Proof.
  intros xpow brentq newton flog fexp x0.
  split; [reflexivity|]. split; [intros d; apply find_root_nonpos_min|].
  split; [discriminate|].
  intros Hone. vm_compute parse_recurrence.
  unfold solve_recurrence. simpl.
  unfold solve_terms, g_rec. simpl. rewrite Hone. reflexivity.
Qed.

Lemma sentinel_outcomes_witness :
  find_root exact_xpow (brent_at 2) no_newton (fun _ => 0) (fun _ => 1) [0; 1] None
    = Some (Fin PENALTY) /\
  find_root exact_xpow (brent_at 2) no_newton (fun _ => 0) (fun _ => 1) [-1; 1] None
    = Some (Fin PENALTY) /\
  solve_recurrence exact_xpow (brent_at 2)
    (mkRec (mkFT 1 "T" ["n"%string] [0]) [FT (mkFT 0.5 "T" ["n"%string] [-1])])
    = Some (Fin PENALTY).
Proof.
  destruct (sentinel_outcomes exact_xpow (brent_at 2) no_newton (fun _ => 0) (fun _ => 1) None)
    as [_ [H2 [_ H4]]].
  split; [apply H2; [simpl; lia | vm_compute; discriminate]|].
  split; [apply H2; [simpl; lia | vm_compute; discriminate]|].
  specialize (H4 (fun e => eq_refl)). vm_compute in H4. exact H4.
Defined.

(* ------------------------------------------------------------------ *)
(** ** C6: the thresholds of [_combine_terms] *)

(** C6: a grouped function coefficient of magnitude exactly [1e-12] is
    kept ([abs(coef) < 1e-12] skips only smaller ones), while a combined
    constant of the same magnitude is dropped ([abs(constant_sum) > 1e-12]
    keeps only larger ones). *)
Theorem combine_threshold_boundary :
  (exists r t, parse_recurrence "T(n) = 0.000000000001*T(n-1)" = Some r /\
               rhs r = [FT t] /\ coef t == eps12) /\
  (exists r, parse_recurrence "T(n) = 0.000000000001" = Some r /\ rhs r = []).
Proof.
  split.
  - eexists; eexists; split; [vm_compute; reflexivity|].
    split; [reflexivity|]. vm_compute. reflexivity.
  - eexists; split; [vm_compute; reflexivity|]. reflexivity.
Qed.

(* ------------------------------------------------------------------ *)
(** ** C1: round trip through the formatter *)

(** C1: the accepted input ["T(n) = 2*T(n-1) + -1*T(n-2)"] is formatted as
    ["T(n) = 2*T(n-1) - T(n-2)"] (the [" + -"] rewrite), and the parser
    rejects that text: it splits the right-hand side only on ["+"]. *)
Theorem format_recurrence_roundtrip_negative :
  exists r, parse_recurrence "T(n) = 2*T(n-1) + -1*T(n-2)" = Some r /\
            format_recurrence r = "T(n) = 2*T(n-1) - T(n-2)"%string /\
            parse_recurrence (format_recurrence r) = None.
Proof.
  eexists. split; [vm_compute; reflexivity|].
  split; vm_compute; reflexivity.
Qed.

(* ------------------------------------------------------------------ *)
(** ** C9: the parser output is normalized *)

Lemma shifts_eqb_refl (a : list Q) : shifts_eqb a a = true.
Proof.
  induction a as [|x a IH]; simpl; [reflexivity|].
  rewrite IH, andb_true_r. apply Qeq_bool_iff. reflexivity.
Qed.

Lemma shifts_eqb_sym (a b : list Q) : shifts_eqb a b = shifts_eqb b a.
Proof.
  revert b; induction a as [|x a IH]; destruct b as [|y b]; simpl; try reflexivity.
  rewrite IH. f_equal.
  destruct (Qeq_bool x y) eqn:E1, (Qeq_bool y x) eqn:E2; try reflexivity.
  - apply Qeq_bool_iff in E1. rewrite <- E2. symmetry.
    apply Qeq_bool_iff. symmetry. exact E1.
  - apply Qeq_bool_iff in E2. rewrite <- E1.
    apply Qeq_bool_iff. symmetry. exact E2.
Qed.

Lemma shifts_eqb_trans (a b c : list Q) :
  shifts_eqb a b = true -> shifts_eqb b c = true -> shifts_eqb a c = true.
Proof.
  revert b c; induction a as [|x a IH]; destruct b as [|y b]; destruct c as [|z c];
    simpl; try discriminate; try reflexivity.
  intros H1 H2. apply andb_true_iff in H1 as [H1 H1']. apply andb_true_iff in H2 as [H2 H2'].
  apply andb_true_iff. split; [|eapply IH; eassumption].
  apply Qeq_bool_iff in H1. apply Qeq_bool_iff in H2. apply Qeq_bool_iff.
  rewrite H1. exact H2.
Qed.

Lemma ForallOrdPairs_snoc {A} (R : A -> A -> Prop) (l : list A) (x : A) :
  ForallOrdPairs R l -> Forall (fun a => R a x) l -> ForallOrdPairs R (l ++ [x]).
Proof.
  induction l as [|a l IH]; simpl; intros Hp Hf.
  - constructor; constructor.
  - inversion Hp; subst. inversion Hf; subst.
    constructor; [apply Forall_app; split; auto|auto].
Qed.

Lemma ForallOrdPairs_mid {A} (R : A -> A -> Prop) (l1 l2 : list A) (a : A) :
  ForallOrdPairs R (l1 ++ a :: l2) -> Forall (R a) l2.
Proof.
  induction l1 as [|b l1 IH]; simpl; intros H; inversion H; subst; auto.
Qed.

Lemma group_sum_snoc raw x k :
  group_sum (raw ++ [x]) k = group_step k (group_sum raw k) x.
Proof. unfold group_sum. rewrite fold_left_app. reflexivity. Qed.

Lemma group_fold_nomatch k (P : list Term) acc :
  (forall t, In (FT t) P -> shifts_eqb k (shifts t) = false) ->
  fold_left (group_step k) P acc = acc.
Proof.
  revert acc; induction P as [|x P IH]; intros acc H; simpl; [reflexivity|].
  destruct x as [t|c]; simpl.
  - rewrite (H t (or_introl eq_refl)). apply IH. intros; apply H; right; assumption.
  - apply IH. intros; apply H; right; assumption.
Qed.

(** The invariant of the first loop of [_combine_terms] after the raw
    terms [P]: distinct keys, each holding its group sum, covering [P]. *)
Definition loop_inv (m : list (list Q * Q)) (P : list Term) : Prop :=
  ForallOrdPairs (fun a b => shifts_eqb a b = false) (map fst m) /\
  Forall (fun kv => snd kv = group_sum P (fst kv)) m /\
  (forall t, In (FT t) P -> exists k0, In k0 (map fst m) /\ shifts_eqb k0 (shifts t) = true).

Lemma fmap_add_new m k c :
  (forall k0, In k0 (map fst m) -> shifts_eqb k0 k = false) ->
  fmap_add m k c = m ++ [(k, 0 + c)].
Proof.
  induction m as [|[k' v] m IH]; simpl; intros H; [reflexivity|].
  rewrite (H k' (or_introl eq_refl)). f_equal. apply IH.
  intros; apply H; right; assumption.
Qed.

Lemma fmap_add_hit m k c :
  (exists k0, In k0 (map fst m) /\ shifts_eqb k0 k = true) ->
  exists m1 k' v m2, m = m1 ++ (k', v) :: m2 /\ shifts_eqb k' k = true /\
    fmap_add m k c = m1 ++ (k', v + c) :: m2.
Proof.
  induction m as [|[k' v] m IH]; simpl; intros [k0 [Hin Heq]]; [contradiction|].
  destruct (shifts_eqb k' k) eqn:E.
  - exists [], k', v, m. auto.
  - destruct Hin as [Hin|Hin]; [subst; congruence|].
    destruct IH as [m1 [k'' [v' [m2 [-> [Hk ->]]]]]]; [eauto|].
    exists ((k', v) :: m1), k'', v', m2. auto.
Qed.

Lemma loop_inv_ct m P c : loop_inv m P -> loop_inv m (P ++ [CT c]).
Proof.
  intros [H1 [H2 H3]]. split; [assumption|]. split.
  - eapply Forall_impl; [|exact H2]. intros kv Hkv. rewrite group_sum_snoc. exact Hkv.
  - intros t Ht. apply in_app_or in Ht as [Ht|[Ht|[]]]; [auto|discriminate].
Qed.

Lemma loop_inv_ft m P t :
  loop_inv m P -> loop_inv (fmap_add m (shifts t) (coef t)) (P ++ [FT t]).
Proof.
  intros [H1 [H2 H3]].
  destruct (existsb (fun k0 => shifts_eqb k0 (shifts t)) (map fst m)) eqn:Ex.
  - apply existsb_exists in Ex.
    destruct (fmap_add_hit m (shifts t) (coef t) Ex) as [m1 [k' [v [m2 [Hm [Hk Hadd]]]]]].
    rewrite Hadd. subst m.
    assert (Hmid : Forall (fun b => shifts_eqb k' b = false) (map fst m2)).
    { rewrite map_app in H1. simpl in H1.
      exact (ForallOrdPairs_mid (fun a b => shifts_eqb a b = false) _ _ _ H1). }
    assert (Hm1 : forall kv, In kv m1 -> shifts_eqb (fst kv) (shifts t) = false).
    { intros kv Hkv. destruct (shifts_eqb (fst kv) (shifts t)) eqn:E; [|reflexivity].
      exfalso. apply in_split in Hkv as [l1 [l2 Hl]]. subst m1.
      rewrite !map_app in H1. simpl in H1. rewrite <- app_assoc in H1. simpl in H1.
      pose proof (ForallOrdPairs_mid (fun a b => shifts_eqb a b = false) _ _ _ H1) as Hf.
      rewrite Forall_forall in Hf.
      specialize (Hf k' ltac:(apply in_or_app; right; left; reflexivity)).
      simpl in Hf.
      rewrite (shifts_eqb_trans _ _ _ E ltac:(rewrite shifts_eqb_sym; exact Hk)) in Hf.
      discriminate. }
    assert (Hm2 : forall kv, In kv m2 -> shifts_eqb (fst kv) (shifts t) = false).
    { intros kv Hkv. destruct (shifts_eqb (fst kv) (shifts t)) eqn:E; [|reflexivity].
      rewrite Forall_forall in Hmid.
      specialize (Hmid (fst kv) (in_map fst _ _ Hkv)).
      rewrite (shifts_eqb_trans _ _ _ Hk ltac:(rewrite shifts_eqb_sym; exact E)) in Hmid.
      discriminate. }
    split; [|split].
    + rewrite !map_app in *. exact H1.
    + apply Forall_app in H2 as [H2a H2b]. inversion H2b as [|? ? Hkv H2c]; subst.
      apply Forall_app. split; [|constructor].
      * rewrite Forall_forall in *. intros kv Hkv'.
        rewrite group_sum_snoc, H2a by assumption. simpl. rewrite Hm1 by assumption.
        reflexivity.
      * simpl in *. rewrite group_sum_snoc, Hkv. simpl. rewrite Hk. reflexivity.
      * rewrite Forall_forall in *. intros kv Hkv'.
        rewrite group_sum_snoc, H2c by assumption. simpl. rewrite Hm2 by assumption.
        reflexivity.
    + intros t' Ht'. rewrite !map_app in *. simpl in *.
      apply in_app_or in Ht' as [Ht'|[Ht'|[]]].
      * destruct (H3 t' Ht') as [k0 [Hin Heq]]. exists k0. split; [|exact Heq].
        exact Hin.
      * inversion Ht'; subst. exists k'. split; [|exact Hk].
        apply in_or_app. right. left. reflexivity.
  - assert (Hno : forall k0, In k0 (map fst m) -> shifts_eqb k0 (shifts t) = false).
    { intros k0 Hk0. destruct (shifts_eqb k0 (shifts t)) eqn:E; [|reflexivity].
      rewrite <- Ex. symmetry. apply existsb_exists. eauto. }
    rewrite (fmap_add_new m (shifts t) (coef t) Hno).
    split; [|split].
    + rewrite map_app. simpl. apply ForallOrdPairs_snoc; [exact H1|].
      apply Forall_forall. exact Hno.
    + apply Forall_app. split.
      * rewrite Forall_forall in *. intros kv Hkv.
        rewrite group_sum_snoc, H2 by assumption. simpl.
        rewrite Hno by (apply in_map; assumption). reflexivity.
      * constructor; [|constructor]. simpl.
        rewrite group_sum_snoc. simpl. rewrite shifts_eqb_refl. f_equal.
        unfold group_sum. symmetry. apply group_fold_nomatch.
        intros t' Ht'. destruct (H3 t' Ht') as [k0 [Hin Heq]].
        destruct (shifts_eqb (shifts t) (shifts t')) eqn:E; [|reflexivity].
        rewrite <- (Hno k0 Hin). symmetry.
        apply (shifts_eqb_trans _ _ _ Heq). rewrite shifts_eqb_sym. exact E.
    + intros t' Ht'. rewrite map_app. simpl.
      apply in_app_or in Ht' as [Ht'|[Ht'|[]]].
      * destruct (H3 t' Ht') as [k0 [Hin Heq]]. exists k0.
        split; [apply in_or_app; left; exact Hin|exact Heq].
      * injection Ht' as Ht'. subst t'. exists (shifts t).
        split; [apply in_or_app; right; left; reflexivity|apply shifts_eqb_refl].
Qed.

Lemma combine_loop_inv ts cs m P cs' m' :
  loop_inv m P -> combine_loop ts cs m = (cs', m') -> loop_inv m' (P ++ ts).
Proof.
  revert cs m P. induction ts as [|x ts IH]; intros cs m P Hinv Hl; simpl in Hl.
  - inversion Hl; subst. rewrite app_nil_r. exact Hinv.
  - replace (P ++ x :: ts) with ((P ++ [x]) ++ ts) by (rewrite <- app_assoc; reflexivity).
    destruct x as [t|c].
    + eapply IH; [|exact Hl]. apply loop_inv_ft. exact Hinv.
    + eapply IH; [|exact Hl]. apply loop_inv_ct. exact Hinv.
Qed.

Lemma ForallOrdPairs_cons_inv {A} (R : A -> A -> Prop) a l :
  ForallOrdPairs R (a :: l) -> Forall (R a) l /\ ForallOrdPairs R l.
Proof. intros H. inversion H. auto. Qed.

Lemma emit_functions_spec (G : list Q -> Q) m vs f ts :
  emit_functions m vs f = Some ts ->
  ForallOrdPairs (fun a b => shifts_eqb a b = false) (map fst m) ->
  Forall (fun kv => snd kv = G (fst kv)) m ->
  exists fts, ts = map FT fts /\
    ForallOrdPairs (fun a b => shifts_eqb (shifts a) (shifts b) = false) fts /\
    Forall (fun t => coef t = G (shifts t)) fts /\
    Forall (fun t => In (shifts t) (map fst m)) fts.
Proof.
  revert ts; induction m as [|[k c] m IH]; intros ts He Hd Hv; simpl in He.
  - inversion He; subst. exists []. repeat split; constructor.
  - simpl in Hd. apply ForallOrdPairs_cons_inv in Hd as [Hk Hd'].
    apply Forall_cons_iff in Hv as [Hc Hv']. simpl in Hc.
    destruct (Qltb (Qabs c) eps12).
    + destruct (IH ts He Hd' Hv') as [fts [-> [H1 [H2 H3]]]].
      exists fts. repeat split; auto.
      eapply Forall_impl; [|exact H3]. intros t Ht. right. exact Ht.
    + unfold FunctionTerm_new in He.
      destruct (Nat.eqb (List.length vs) (List.length k)); [|discriminate].
      destruct (emit_functions m vs f) as [ts'|] eqn:E; [|discriminate].
      injection He as He. subst ts.
      destruct (IH ts' eq_refl Hd' Hv') as [fts [-> [H1 [H2 H3]]]].
      exists (mkFT c f vs k :: fts). split; [reflexivity|].
      split; [|split].
      * constructor; [|exact H1].
        rewrite Forall_forall in *. intros t Ht. simpl.
        apply Hk. apply H3. exact Ht.
      * constructor; [exact Hc|exact H2].
      * constructor; [left; reflexivity|].
        eapply Forall_impl; [|exact H3]. intros t Ht. right. exact Ht.
Qed.

Lemma combine_terms_normalized raw vs f out :
  combine_terms raw vs f = Some out -> rhs_normalized raw out.
Proof.
  unfold combine_terms.
  destruct (combine_loop raw 0 []) as [cs m] eqn:El.
  destruct (emit_functions m vs f) as [ts|] eqn:Ee; [|discriminate].
  intros H. inversion H; subst out.
  assert (Hinv : loop_inv m raw).
  { change raw with ([] ++ raw). eapply combine_loop_inv; [|exact El].
    split; [constructor|]. split; [constructor|]. intros t []. }
  destruct Hinv as [H1 [H2 _]].
  destruct (emit_functions_spec (group_sum raw) m vs f ts Ee H1 H2)
    as [fts [-> [Hd [Hc _]]]].
  exists (if Qltb eps12 (Qabs cs) then [CT cs] else []), fts.
  split; [reflexivity|]. split; [|split; assumption].
  destruct (Qltb eps12 (Qabs cs)); [right; eauto|left; reflexivity].
Qed.

(** C9: every recurrence returned by [parse_recurrence] has an RHS with at
    most one [ConstantTerm], which if present comes first, followed by
    function terms with pairwise distinct shift vectors, each carrying the
    combined coefficient of all raw summands of the input that share its
    shift vector. *)
Theorem parse_recurrence_normalized (text : string) (r : Recurrence) :
  parse_recurrence text = Some r ->
  exists f vs raw, parse_raw text = Some (f, vs, raw) /\ rhs_normalized raw (rhs r).
Proof.
  unfold parse_recurrence.
  destruct (parse_raw text) as [[[f vs] raw]|]; [|discriminate].
  destruct (FunctionTerm_new 1 f vs (repeat 0 (List.length vs))) as [l|]; [|discriminate].
  destruct (combine_terms raw vs f) as [terms|] eqn:Ec; [|discriminate].
  unfold Recurrence_new.
  destruct (negb (Qeq_bool (coef l) 1)); [discriminate|].
  destruct (existsb _ (shifts l)); [discriminate|].
  intros H. inversion H; subst r. simpl.
  exists f, vs, raw. split; [reflexivity|].
  eapply combine_terms_normalized. exact Ec.
Qed.

Lemma parse_recurrence_normalized_witness :
  exists r, parse_recurrence "D(m, n) = D(m-1, n) + 3 + D(m, n-1) + -2 + 2*D(m-1, n)" = Some r /\
  exists f vs raw,
    parse_raw "D(m, n) = D(m-1, n) + 3 + D(m, n-1) + -2 + 2*D(m-1, n)" = Some (f, vs, raw) /\
    rhs_normalized raw (rhs r).
Proof.
  eexists. split; [vm_compute; reflexivity|].
  apply parse_recurrence_normalized. vm_compute. reflexivity.
Defined.

(* ------------------------------------------------------------------ *)
(** ** Rounding lemmas for [snap_int] *)

Lemma Qfloor_unique (z : Z) (q : Q) :
  inject_Z z <= q -> q < inject_Z (z + 1) -> Qfloor q = z.
Proof.
  intros H1 H2.
  pose proof (Qfloor_le q) as H3. pose proof (Qlt_floor q) as H4.
  assert (inject_Z (Qfloor q) < inject_Z (z + 1)) as H5 by (eapply Qle_lt_trans; eauto).
  assert (inject_Z z < inject_Z (Qfloor q + 1)) as H6 by (eapply Qle_lt_trans; eauto).
  rewrite <- Zlt_Qlt in H5, H6. lia.
Qed.

Lemma round_half_even_near (q : Q) (k : Z) :
  Qabs (q - inject_Z k) < 1 # 2 -> round_half_even q = k.
Proof.
  intros H. apply Qabs_Qlt_condition in H as [Hl Hu].
  unfold round_half_even.
  destruct (Qlt_le_dec q (inject_Z k)) as [Hq|Hq].
  - assert (Hk1 : inject_Z (k - 1) == inject_Z k - 1)
      by (unfold Qeq, Qminus, Qplus, inject_Z; simpl; lia).
    assert (Hf : Qfloor q = (k - 1)%Z).
    { apply Qfloor_unique.
      - lra.
      - replace (k - 1 + 1)%Z with k by lia. exact Hq. }
    rewrite Hf.
    destruct (Qltb (q - inject_Z (k - 1)) (1 # 2)) eqn:E1.
    + apply Qltb_iff in E1. lra.
    + destruct (Qltb (1 # 2) (q - inject_Z (k - 1))) eqn:E2; [lia|].
      apply Qltb_false in E2. lra.
  - assert (Hf : Qfloor q = k).
    { apply Qfloor_unique; [exact Hq|]. rewrite inject_Z_plus. change (inject_Z 1) with 1. lra. }
    rewrite Hf.
    destruct (Qltb (q - inject_Z k) (1 # 2)) eqn:E1; [reflexivity|].
    apply Qltb_false in E1. lra.
Qed.

Lemma round_half_even_close (q : Q) :
  Qabs (inject_Z (round_half_even q) - q) <= 1 # 2.
Proof.
  unfold round_half_even.
  pose proof (Qfloor_le q) as H1. pose proof (Qlt_floor q) as H2.
  rewrite inject_Z_plus in H2. change (inject_Z 1) with 1 in H2.
  apply Qabs_Qle_condition.
  destruct (Qltb (q - inject_Z (Qfloor q)) (1 # 2)) eqn:E1.
  - apply Qltb_iff in E1. split; lra.
  - apply Qltb_false in E1.
    destruct (Qltb (1 # 2) (q - inject_Z (Qfloor q))) eqn:E2.
    + rewrite inject_Z_plus. change (inject_Z 1) with 1. split; lra.
    + apply Qltb_false in E2.
      destruct (Z.even (Qfloor q));
        [|rewrite inject_Z_plus; change (inject_Z 1) with 1]; split; lra.
Qed.

Lemma Qmake_million (n : Z) : (n # 1000000) * 1000000 == inject_Z n.
Proof. unfold Qeq, Qmult, inject_Z. simpl. lia. Qed.

Lemma snap_int_round6 (v : Q) : snap_int v == round6 v.
Proof.
  unfold snap_int.
  destruct (Qeq_bool (round6 v) (inject_Z (py_int (round6 v)))) eqn:E.
  - apply Qeq_bool_iff in E. symmetry. exact E.
  - reflexivity.
Qed.

(** [snap_int] is rounding to 6 decimals: a multiple of [1e-6], within
    [5e-7] of its argument, and the integer [k] when the argument is
    strictly within [5e-7] of [k]. *)
Lemma snap_int_spec (r : Q) :
  (exists n : Z, snap_int r == n # 1000000) /\
  Qabs (snap_int r - r) <= 1 # 2000000 /\
  (forall k : Z, Qabs (r - inject_Z k) < 1 # 2000000 -> snap_int r == inject_Z k).
Proof.
  pose proof (snap_int_round6 r) as Hs.
  unfold round6 in Hs. change (inject_Z (10 ^ 6)) with 1000000 in Hs.
  change (10 ^ 6)%positive with 1000000%positive in Hs.
  set (n := round_half_even (r * 1000000)) in *.
  split; [exists n; exact Hs|]. split.
  - pose proof (round_half_even_close (r * 1000000)) as Hc. fold n in Hc.
    apply Qabs_Qle_condition in Hc. apply Qabs_Qle_condition.
    pose proof (Qmake_million n) as Hm.
    rewrite Hs. split; lra.
  - intros k Hk. apply Qabs_Qlt_condition in Hk.
    assert (Hn : n = (k * 1000000)%Z).
    { apply round_half_even_near. rewrite inject_Z_mult.
      change (inject_Z 1000000) with 1000000.
      apply Qabs_Qlt_condition. split; lra. }
    rewrite Hs, Hn. unfold Qeq, inject_Z. simpl. lia.
Qed.

(* ------------------------------------------------------------------ *)
(** ** The decision on [g(1)] and the bracket phase of [solve_recurrence] *)

Lemma Qle_bool_compat (x x' y y' : Q) :
  x == x' -> y == y' -> Qle_bool x y = Qle_bool x' y'.
Proof.
  intros Hx Hy. apply Bool.eq_iff_eq_true. rewrite !Qle_bool_iff, Hx, Hy.
  reflexivity.
Qed.

Lemma existsb_nonpos_false (ds : list Q) :
  Forall (fun d => 0 < d) ds -> existsb (fun d => Qle_bool d 0) ds = false.
Proof.
  induction 1 as [|d ds Hd _ IH]; simpl; [reflexivity|].
  rewrite IH, orb_false_r. apply Qle_bool_false. exact Hd.
Qed.

Lemma opt_map_length {A B} (f : A -> option B) (l : list A) (ys : list B) :
  opt_map f l = Some ys -> List.length ys = List.length l.
Proof.
  revert ys; induction l as [|x l IH]; simpl; intros ys H.
  - injection H as <-. reflexivity.
  - destruct (f x) as [y|]; [|discriminate].
    destruct (opt_map f l) as [ys'|]; [|discriminate].
    injection H as <-. simpl. rewrite (IH ys' eq_refl). reflexivity.
Qed.

Section GOne.

Variable xpow : Q -> Q -> option Q.
Variable brentq : (Q -> option Q) -> Q -> Q -> outcome.
(** IEEE: [np.log(1.0) = 0.0] and [np.exp(-0.0) = 1.0]. *)
Hypothesis xpow_one : forall e, xpow 1 e = Some 1.

Lemma weighted_sum_one (cs ds : list Q) :
  List.length cs = List.length ds ->
  exists s, weighted_sum xpow cs ds 1 = Some s /\ s == qsum cs.
Proof.
  revert ds; induction cs as [|c cs IH]; intros [|d ds] Hl; try discriminate.
  - exists 0. split; reflexivity.
  - injection Hl as Hl. destruct (IH ds Hl) as [s [Hs Hq]].
    simpl. rewrite xpow_one, Hs. eexists; split; [reflexivity|].
    unfold qsum in *. simpl. rewrite Hq. ring.
Qed.

Lemma g_rec_one (cs ds : list Q) :
  List.length cs = List.length ds ->
  exists g1, g_rec xpow cs ds 1 = Some g1 /\ g1 == qsum cs - 1.
Proof.
  intros Hl. destruct (weighted_sum_one cs ds Hl) as [s [Hs Hq]].
  unfold g_rec. replace (Qle_bool 1 0) with false by reflexivity.
  rewrite Hs. eexists; split; [reflexivity|]. rewrite Hq. reflexivity.
Qed.

End GOne.

Lemma solve_terms_g1 xpow brentq (cs ds : list Q) (g1 : Q) :
  cs <> [] -> existsb (fun d => Qle_bool d 0) ds = false ->
  g_rec xpow cs ds 1 = Some g1 ->
  (Qabs g1 < eps12 -> solve_terms xpow brentq cs ds = Fin 1) /\
  (g1 <= - eps12 -> solve_terms xpow brentq cs ds = Fin PENALTY).
Proof.
  intros Hne Hex Hg. destruct cs as [|c cs']; [congruence|].
  unfold solve_terms. rewrite Hex. cbv beta iota zeta. rewrite Hg.
  split; intros H.
  - rewrite (proj2 (Qltb_iff _ _) H). reflexivity.
  - assert (He : 0 < eps12) by (unfold eps12, Qlt; simpl; lia).
    assert (Ha : Qabs g1 == - g1) by (apply Qabs_neg; lra).
    rewrite (proj2 (Qltb_false _ _)) by (rewrite Ha; lra).
    rewrite (proj2 (Qltb_iff _ _)) by lra. reflexivity.
Qed.

Lemma solve_terms_bracket xpow brentq (cs ds : list Q) (b r : Q) :
  cs <> [] -> existsb (fun d => Qle_bool d 0) ds = false ->
  (forall g1, g_rec xpow cs ds 1 = Some g1 -> eps12 <= g1) ->
  find_bracket (g_rec xpow cs ds) 50 2 = Some b ->
  brentq (g_rec xpow cs ds) 1 b = Converged r ->
  solve_terms xpow brentq cs ds = Fin (snap_int r).
Proof.
  intros Hne Hex Hg1 Hb Hr. destruct cs as [|c cs']; [congruence|].
  unfold solve_terms. rewrite Hex. cbv beta iota zeta. rewrite Hb, Hr.
  destruct (g_rec xpow (c :: cs') ds 1) as [g1|] eqn:E; [|reflexivity].
  specialize (Hg1 g1 eq_refl).
  assert (He : 0 < eps12) by (unfold eps12, Qlt; simpl; lia).
  assert (Ha : Qabs g1 == g1) by (apply Qabs_pos; lra).
  rewrite (proj2 (Qltb_false _ _)) by (rewrite Ha; lra).
  rewrite (proj2 (Qltb_false _ _)) by lra. reflexivity.
Qed.

Lemma solve_recurrence_terms xpow brentq (rec : Recurrence) (v : string) (ds : list Q) :
  vars (lhs rec) = [v] ->
  opt_map first_delta (func_terms (rhs rec)) = Some ds ->
  solve_recurrence xpow brentq rec = Some (solve_terms xpow brentq (rec_coefs rec) ds).
Proof.
  intros Hv Hd. unfold solve_recurrence. rewrite Hv. cbv beta iota zeta.
  rewrite Hd. reflexivity.
Qed.

(** The decision on [g(1)] read on a parsed recurrence: [g(1)] is the sum of
    the coefficients minus one. *)
Lemma solve_recurrence_g1_cases xpow brentq (rec : Recurrence) (v : string) (ds : list Q) :
  (forall e, xpow 1 e = Some 1) ->
  vars (lhs rec) = [v] ->
  opt_map first_delta (func_terms (rhs rec)) = Some ds ->
  func_terms (rhs rec) <> [] ->
  Forall (fun d => 0 < d) ds ->
  (Qabs (qsum (rec_coefs rec) - 1) < eps12 ->
   solve_recurrence xpow brentq rec = Some (Fin 1)) /\
  (qsum (rec_coefs rec) - 1 <= - eps12 ->
   solve_recurrence xpow brentq rec = Some (Fin PENALTY)).
Proof.
  intros Hone Hv Hd Hne Hpos.
  rewrite (solve_recurrence_terms xpow brentq rec v ds Hv Hd).
  assert (Hl : List.length (rec_coefs rec) = List.length ds).
  { unfold rec_coefs. rewrite length_map. symmetry. exact (opt_map_length _ _ _ Hd). }
  destruct (g_rec_one xpow Hone _ _ Hl) as [g1 [Hg Hq]].
  assert (Hc : rec_coefs rec <> []).
  { unfold rec_coefs. destruct (func_terms (rhs rec)); [congruence|discriminate]. }
  destruct (solve_terms_g1 xpow brentq _ _ g1 Hc (existsb_nonpos_false ds Hpos) Hg)
    as [H1 H2].
  split; intros H.
  - rewrite H1; [reflexivity|]. rewrite Hq. exact H.
  - rewrite H2; [reflexivity|]. rewrite Hq. exact H.
Qed.

Lemma parse_fib : parse_recurrence fib_text = Some fib_rec.
Proof. vm_compute. reflexivity. Qed.

(** [snap_int] of a root near the golden ratio. *)
Lemma snap_int_golden (r : Q) :
  Qabs (r - (1618034 # 1000000)) < 1 # 2000000 ->
  snap_int r = 1618034 # 1000000.
Proof.
  intros Hr.
  assert (Hn : round_half_even (r * inject_Z (10 ^ 6)) = 1618034%Z).
  { apply round_half_even_near.
    change (inject_Z (10 ^ 6)) with 1000000. change (inject_Z 1618034) with 1618034.
    apply Qabs_Qlt_condition in Hr. apply Qabs_Qlt_condition. split; lra. }
  unfold snap_int, round6. rewrite Hn. reflexivity.
Qed.

(** The bracket phase on the Fibonacci recurrence: [g(1) = 1] and
    [g(2) = -1/4], so the bracket is [[1, 2]]. *)
Lemma fib_bracket xpow brentq (r : Q) :
  (forall e, xpow 1 e = Some 1) ->
  xpow 2 1 = Some (1 # 2) -> xpow 2 2 = Some (1 # 4) ->
  brentq (g_rec xpow [1; 1] [1; 2]) 1 2 = Converged r ->
  solve_recurrence xpow brentq fib_rec = Some (Fin (snap_int r)).
Proof.
  intros Hone H21 H22 Hb.
  rewrite (solve_recurrence_terms xpow brentq fib_rec "n" [1; 2] eq_refl eq_refl).
  f_equal. change (rec_coefs fib_rec) with [1; 1].
  apply (solve_terms_bracket xpow brentq _ _ 2 r); try discriminate; try reflexivity.
  - intros g1 Hg. unfold g_rec in Hg. simpl in Hg. rewrite !Hone in Hg.
    injection Hg as <-. apply Qle_bool_iff. vm_compute. reflexivity.
  - simpl. unfold g_rec. simpl. rewrite H21, H22. reflexivity.
  - exact Hb.
Qed.

Lemma phi_double_golden : Qabs (phi_double - (1618034 # 1000000)) < 1 # 2000000.
Proof. vm_compute. reflexivity. Qed.

(* ================================================================== *)
(** ** C2: the Fibonacci recurrence end to end *)

(** C2 (amended).  Parsing ["T(n) = T(n-1) + T(n-2)"] and solving it with
    a root finder that converges to any [r] within [5e-7] of [1.618034]
    (the golden ratio [1.6180339887...] is) returns [round(r, 6) = 1.618034],
    and [format_asymptotics] renders it as exactly ["O(1.61804^n)"]: the
    base is [ceil(161803.4) / 10^5] with five decimals. *)
Theorem fibonacci_end_to_end xpow brentq (r : Q)
  (Hone : forall e, xpow 1 e = Some 1)
  (H21 : xpow 2 1 = Some (1 # 2)) (H22 : xpow 2 2 = Some (1 # 4))
  (Hb : brentq (g_rec xpow [1; 1] [1; 2]) 1 2 = Converged r)
  (Hr : Qabs (r - (1618034 # 1000000)) < 1 # 2000000) :
  parse_recurrence fib_text = Some fib_rec /\
  solve_recurrence xpow brentq fib_rec = Some (Fin (1618034 # 1000000)) /\
  format_asymptotics fib_rec (Fin (1618034 # 1000000)) = Some "O(1.61804^n)"%string.
Proof.
  split; [exact parse_fib|]. split.
  - rewrite (fib_bracket xpow brentq r Hone H21 H22 Hb).
    rewrite (snap_int_golden r Hr). reflexivity.
  - vm_compute. reflexivity.
Qed.

Lemma fibonacci_end_to_end_witness :
  parse_recurrence fib_text = Some fib_rec /\
  solve_recurrence exact_xpow (brent_at phi_double) fib_rec
    = Some (Fin (1618034 # 1000000)) /\
  format_asymptotics fib_rec (Fin (1618034 # 1000000)) = Some "O(1.61804^n)"%string.
Proof.
  apply (fibonacci_end_to_end exact_xpow (brent_at phi_double) phi_double).
  - intros e. reflexivity.
  - vm_compute. reflexivity.
  - vm_compute. reflexivity.
  - reflexivity.
  - vm_compute. reflexivity.
Defined.

(** C2 counterexample: with the double nearest the golden ratio as the
    converged root, the pipeline yields ["O(1.61804^n)"], not
    ["O(1.61803^n)"]; formatting the unsnapped root also gives ["1.61804"]. *)
Lemma fibonacci_counterexample :
  solve_recurrence exact_xpow (brent_at phi_double) fib_rec
    = Some (Fin (1618034 # 1000000)) /\
  format_asymptotics fib_rec (Fin (1618034 # 1000000)) = Some "O(1.61804^n)"%string /\
  "O(1.61804^n)"%string <> "O(1.61803^n)"%string /\
  format_number phi_double = "1.61804"%string.
Proof.
  split; [vm_compute; reflexivity|].
  split; [vm_compute; reflexivity|].
  split; [discriminate|]. vm_compute. reflexivity.
Qed.

(* ================================================================== *)
(** ** C4: the snapping of the converged root *)

(** C4 (amended).  When [g(1) >= 1e-12], the bracket search finds [b] and
    [brentq] converges to [r], [solve_recurrence] returns [snap_int r], which
    is [round(r, 6)]: a multiple of [1e-6], within [5e-7] of [r], and the
    integer [k] whenever [r] is strictly within [5e-7] of [k].  So [r] is
    returned unmodified only when it is already a multiple of [1e-6]. *)
Theorem solve_recurrence_rounds xpow brentq (rec : Recurrence) (v : string)
  (ds : list Q) (b r : Q)
  (Hv : vars (lhs rec) = [v])
  (Hd : opt_map first_delta (func_terms (rhs rec)) = Some ds)
  (Hne : func_terms (rhs rec) <> [])
  (Hpos : Forall (fun d => 0 < d) ds)
  (Hg1 : forall g1, g_rec xpow (rec_coefs rec) ds 1 = Some g1 -> eps12 <= g1)
  (Hb : find_bracket (g_rec xpow (rec_coefs rec) ds) 50 2 = Some b)
  (Hr : brentq (g_rec xpow (rec_coefs rec) ds) 1 b = Converged r) :
  solve_recurrence xpow brentq rec = Some (Fin (snap_int r)) /\
  (exists n : Z, snap_int r == n # 1000000) /\
  Qabs (snap_int r - r) <= 1 # 2000000 /\
  (forall k : Z, Qabs (r - inject_Z k) < 1 # 2000000 -> snap_int r == inject_Z k).
Proof.
  split; [|exact (snap_int_spec r)].
  rewrite (solve_recurrence_terms xpow brentq rec v ds Hv Hd). f_equal.
  apply (solve_terms_bracket xpow brentq _ _ b r); auto.
  - unfold rec_coefs. destruct (func_terms (rhs rec)); [congruence|discriminate].
  - exact (existsb_nonpos_false ds Hpos).
Qed.

Lemma solve_recurrence_rounds_witness :
  solve_recurrence exact_xpow (brent_at phi_double) fib_rec
    = Some (Fin (snap_int phi_double)) /\
  (exists n : Z, snap_int phi_double == n # 1000000) /\
  Qabs (snap_int phi_double - phi_double) <= 1 # 2000000 /\
  (forall k : Z, Qabs (phi_double - inject_Z k) < 1 # 2000000 ->
     snap_int phi_double == inject_Z k).
Proof.
  apply (solve_recurrence_rounds exact_xpow (brent_at phi_double) fib_rec "n"
           [1; 2] 2 phi_double).
  - reflexivity.
  - vm_compute. reflexivity.
  - vm_compute. discriminate.
  - repeat constructor.
  - intros g1 Hg. vm_compute in Hg. injection Hg as <-.
    apply Qle_bool_iff. vm_compute. reflexivity.
  - vm_compute. reflexivity.
  - reflexivity.
Defined.

Lemma phi_double_far_from_integers (k : Z) :
  1 # 1000000 <= Qabs (phi_double - inject_Z k).
Proof.
  unfold phi_double.
  destruct (Z.le_gt_cases k 1) as [Hk|Hk].
  - rewrite Zle_Qle in Hk. change (inject_Z 1) with 1 in Hk.
    eapply Qle_trans; [|apply Qle_Qabs]. lra.
  - assert (Hk' : (2 <= k)%Z) by lia. rewrite Zle_Qle in Hk'.
    change (inject_Z 2) with 2 in Hk'.
    rewrite <- Qabs_opp. eapply Qle_trans; [|apply Qle_Qabs]. lra.
Qed.

(** C4 counterexample: the root [phi_double] is not within [1e-6] of any
    integer, yet [solve_recurrence] returns [1.618034], not [phi_double];
    and [2.0000007], within [1e-6] of [2], is snapped to [2.000001]. *)
Lemma snap_int_counterexample :
  solve_recurrence exact_xpow (brent_at phi_double) fib_rec
    = Some (Fin (1618034 # 1000000)) /\
  ~ (1618034 # 1000000 == phi_double) /\
  (forall k : Z, 1 # 1000000 <= Qabs (phi_double - inject_Z k)) /\
  snap_int (20000007 # 10000000) = 2000001 # 1000000 /\
  ~ (2000001 # 1000000 == 2).
Proof.
  split; [vm_compute; reflexivity|].
  split; [vm_compute; discriminate|].
  split; [exact phi_double_far_from_integers|].
  split; [vm_compute; reflexivity|]. vm_compute. discriminate.
Qed.

(* ================================================================== *)
(** ** C5: the decision on [g(1)] *)

(** C5 (amended).  For a single-variable recurrence with at least one
    function term and all deltas positive, [g(1)] is the coefficient sum
    minus one; if [|g(1)| < 1e-12] (so also for [g(1)] in [(-1e-12, 0)])
    [solve_recurrence] returns exactly [1.0], and if [g(1) <= -1e-12] it
    returns the infeasible sentinel [1e6]. *)
Theorem solve_recurrence_g1 xpow brentq (rec : Recurrence) (v : string) (ds : list Q)
  (Hone : forall e, xpow 1 e = Some 1)
  (Hv : vars (lhs rec) = [v])
  (Hd : opt_map first_delta (func_terms (rhs rec)) = Some ds)
  (Hne : func_terms (rhs rec) <> [])
  (Hpos : Forall (fun d => 0 < d) ds) :
  (Qabs (qsum (rec_coefs rec) - 1) < eps12 ->
   solve_recurrence xpow brentq rec = Some (Fin 1)) /\
  (qsum (rec_coefs rec) - 1 <= - eps12 ->
   solve_recurrence xpow brentq rec = Some (Fin PENALTY)).
Proof.
  exact (solve_recurrence_g1_cases xpow brentq rec v ds Hone Hv Hd Hne Hpos).
Qed.

Lemma solve_recurrence_g1_witness :
  exists rec, parse_recurrence "T(n) = 0.9999999999995*T(n-1)" = Some rec /\
  (Qabs (qsum (rec_coefs rec) - 1) < eps12 ->
   solve_recurrence exact_xpow (brent_at 2) rec = Some (Fin 1)) /\
  (qsum (rec_coefs rec) - 1 <= - eps12 ->
   solve_recurrence exact_xpow (brent_at 2) rec = Some (Fin PENALTY)).
Proof.
  eexists. split; [vm_compute; reflexivity|].
  apply (solve_recurrence_g1 exact_xpow (brent_at 2) _ "n" [1]).
  - intros e. reflexivity.
  - reflexivity.
  - vm_compute. reflexivity.
  - vm_compute. discriminate.
  - repeat constructor.
Defined.

(** C5 counterexample: for ["T(n) = 0.9999999999995*T(n-1)"], [g(1)] is
    [-5e-13], in [(-1e-12, 0)], and [solve_recurrence] returns [1.0], not
    the infeasible sentinel. *)
Lemma g1_negative_counterexample :
  exists rec, parse_recurrence "T(n) = 0.9999999999995*T(n-1)" = Some rec /\
  g_rec exact_xpow (rec_coefs rec) [1] 1 = Some (- (5 # 10000000000000)) /\
  - eps12 < - (5 # 10000000000000) < 0 /\
  solve_recurrence exact_xpow (brent_at 2) rec = Some (Fin 1) /\
  Fin 1 <> Fin PENALTY.
Proof.
  eexists. split; [vm_compute; reflexivity|].
  split; [vm_compute; reflexivity|].
  split; [split; vm_compute; reflexivity|].
  split; [vm_compute; reflexivity|]. discriminate.
Qed.

(* ================================================================== *)
(** ** C7: monotonicity of the solved root *)

Lemma func_terms_app (l1 l2 : list Term) :
  func_terms (l1 ++ l2) = func_terms l1 ++ func_terms l2.
Proof.
  induction l1 as [|[t|c] l1 IH]; simpl; [reflexivity| |]; rewrite IH; reflexivity.
Qed.

Lemma round_half_even_mono (p q : Q) : p <= q -> (round_half_even p <= round_half_even q)%Z.
Proof.
  intros H. destruct (Z_le_gt_dec (round_half_even p) (round_half_even q)) as [|Hg]; [assumption|].
  exfalso.
  pose proof (round_half_even_close p) as Hp. pose proof (round_half_even_close q) as Hq.
  apply Qabs_Qle_condition in Hp, Hq.
  assert (Hz : inject_Z (round_half_even q) + 1 <= inject_Z (round_half_even p)).
  { rewrite <- (inject_Z_plus _ 1). rewrite <- Zle_Qle. lia. }
  assert (Hpq : p == q) by lra.
  assert (Hc : round_half_even p = round_half_even q).
  { unfold round_half_even, Qltb.
    rewrite (Qfloor_comp p q Hpq).
    rewrite (Qle_bool_compat (1 # 2) (1 # 2) (p - inject_Z (Qfloor q)) (q - inject_Z (Qfloor q)))
      by (reflexivity || (rewrite Hpq; reflexivity)).
    rewrite (Qle_bool_compat (p - inject_Z (Qfloor q)) (q - inject_Z (Qfloor q)) (1 # 2) (1 # 2))
      by (reflexivity || (rewrite Hpq; reflexivity)).
    reflexivity. }
  lia.
Qed.

Lemma snap_int_mono (p q : Q) : p <= q -> snap_int p <= snap_int q.
Proof.
  intros H. rewrite (snap_int_round6 p), (snap_int_round6 q). unfold round6.
  assert (Hm : (round_half_even (p * inject_Z (10 ^ 6)) <= round_half_even (q * inject_Z (10 ^ 6)))%Z).
  { apply round_half_even_mono. apply Qmult_le_compat_r; [exact H|].
    unfold Qle; simpl; lia. }
  unfold Qle. cbn [Qnum Qden]. apply Z.mul_le_mono_nonneg_r; [lia|exact Hm].
Qed.

Lemma snap_int_one : snap_int 1 = 1.
Proof. vm_compute. reflexivity. Qed.

Lemma opt_map_app_inv {A B} (f : A -> option B) (l1 l2 : list A) (x : A) (ys : list B) :
  opt_map f (l1 ++ x :: l2) = Some ys ->
  exists y1 y y2, ys = y1 ++ y :: y2 /\ opt_map f l1 = Some y1 /\ f x = Some y /\
                  opt_map f l2 = Some y2.
Proof.
  revert ys; induction l1 as [|z l1 IH]; simpl; intros ys H.
  - destruct (f x) as [y|]; [|discriminate].
    destruct (opt_map f l2) as [y2|]; [|discriminate].
    injection H as <-. exists [], y, y2. auto.
  - destruct (f z) as [w|] eqn:Ez; [|discriminate].
    destruct (opt_map f (l1 ++ x :: l2)) as [ys'|]; [|discriminate].
    injection H as <-. destruct (IH ys' eq_refl) as (y1 & y & y2 & -> & H1 & H2 & H3).
    exists (w :: y1), y, y2. rewrite H1. auto.
Qed.

Lemma opt_map_app_cons {A B} (f : A -> option B) (l1 l2 : list A) (x : A) y1 y y2 :
  opt_map f l1 = Some y1 -> f x = Some y -> opt_map f l2 = Some y2 ->
  opt_map f (l1 ++ x :: l2) = Some (y1 ++ y :: y2).
Proof.
  revert y1; induction l1 as [|z l1 IH]; simpl; intros y1 H1 Hx H2.
  - injection H1 as <-. rewrite Hx, H2. reflexivity.
  - destruct (f z) as [w|]; [|discriminate].
    destruct (opt_map f l1) as [y1'|]; [|discriminate].
    injection H1 as <-. rewrite (IH y1' eq_refl Hx H2). reflexivity.
Qed.

Lemma Qmult_le_l_compat (c a b : Q) : a <= b -> 0 <= c -> c * a <= c * b.
Proof. intros H Hc. rewrite !(Qmult_comm c). apply Qmult_le_compat_r; assumption. Qed.

Section MonotoneRoots.

Variable xpow : Q -> Q -> option Q.
Variable brentq : (Q -> option Q) -> Q -> Q -> outcome.

Lemma weighted_sum_some (cs ds : list Q) (x : Q) :
  0 < x -> Forall (decreasing_power xpow) ds ->
  exists s, weighted_sum xpow cs ds x = Some s.
Proof.
  intros Hx Hd. revert cs; induction Hd as [|d ds [Hp _] _ IH]; intros [|c cs];
    try (exists 0; reflexivity).
  destruct (Hp x Hx) as [t [Ht _]]. destruct (IH cs) as [s Hs].
  simpl. rewrite Ht, Hs. eexists. reflexivity.
Qed.

Lemma weighted_sum_app (a1 a2 e1 e2 : list Q) (x A B : Q) :
  List.length a1 = List.length e1 ->
  weighted_sum xpow a1 e1 x = Some A -> weighted_sum xpow a2 e2 x = Some B ->
  exists S, weighted_sum xpow (a1 ++ a2) (e1 ++ e2) x = Some S /\ S == A + B.
Proof.
  revert e1 A; induction a1 as [|c a1 IH]; intros [|d e1] A Hl HA HB; try discriminate.
  - simpl in HA. injection HA as <-. exists B. split; [exact HB|]. ring.
  - injection Hl as Hl. simpl in HA |- *.
    destruct (xpow x d) as [t|]; [|discriminate].
    destruct (weighted_sum xpow a1 e1 x) as [A'|] eqn:E; [|discriminate].
    injection HA as <-. destruct (IH e1 A' Hl E HB) as [S [HS HSq]].
    rewrite HS. eexists; split; [reflexivity|]. rewrite HSq. ring.
Qed.

(** The sum is antitone in [x] for non-negative coefficients. *)
Lemma weighted_sum_antitone (cs ds : list Q) (x y sx sy : Q) :
  Forall (fun c => 0 <= c) cs -> Forall (decreasing_power xpow) ds ->
  0 < x -> x <= y ->
  weighted_sum xpow cs ds x = Some sx -> weighted_sum xpow cs ds y = Some sy -> sy <= sx.
Proof.
  intros Hc Hd Hx Hxy. revert ds Hd sx sy.
  induction Hc as [|c cs Hc0 _ IH]; intros ds Hd sx sy Hsx Hsy.
  - simpl in Hsx, Hsy. injection Hsx as <-. injection Hsy as <-. lra.
  - destruct Hd as [|d ds [_ [Hle _]] Hd].
    + simpl in Hsx, Hsy. injection Hsx as <-. injection Hsy as <-. lra.
    + simpl in Hsx, Hsy.
      destruct (xpow x d) as [t|] eqn:Et; [|discriminate].
      destruct (xpow y d) as [u|] eqn:Eu; [|discriminate].
      destruct (weighted_sum xpow cs ds x) as [s|] eqn:Es; [|discriminate].
      destruct (weighted_sum xpow cs ds y) as [s'|] eqn:Es'; [|discriminate].
      injection Hsx as <-. injection Hsy as <-.
      pose proof (Hle x y t u Hx Hxy Et Eu) as Htu.
      pose proof (IH ds Hd s s' Es Es') as Hss.
      assert (c * u <= c * t) by (apply Qmult_le_l_compat; assumption).
      lra.
Qed.


Lemma weighted_sum_strict (cs ds : list Q) (x y sx sy : Q) :
  Forall (fun c => 0 < c) cs -> Forall (decreasing_power xpow) ds ->
  List.length cs = List.length ds -> cs <> [] ->
  0 < x -> x < y ->
  weighted_sum xpow cs ds x = Some sx -> weighted_sum xpow cs ds y = Some sy -> sy < sx.
Proof.
  intros Hc Hd Hl Hne Hx Hxy Hsx Hsy.
  destruct Hc as [|c cs Hc0 Hc]; [congruence|].
  destruct Hd as [|d ds [_ [_ Hlt]] Hd]; [discriminate|].
  simpl in Hsx, Hsy.
  destruct (xpow x d) as [t|] eqn:Et; [|discriminate].
  destruct (xpow y d) as [u|] eqn:Eu; [|discriminate].
  destruct (weighted_sum xpow cs ds x) as [s|] eqn:Es; [|discriminate].
  destruct (weighted_sum xpow cs ds y) as [s'|] eqn:Es'; [|discriminate].
  injection Hsx as <-. injection Hsy as <-.
  pose proof (Hlt x y t u Hx Hxy Et Eu) as Htu.
  assert (Hss : s' <= s).
  { apply (weighted_sum_antitone cs ds x y); try assumption.
    - apply (Forall_impl _ (fun c (H : 0 < c) => Qlt_le_weak _ _ H)). exact Hc.
    - apply Qlt_le_weak. exact Hxy. }
  assert (c * u < c * t).
  { rewrite !(Qmult_comm c). apply Qmult_lt_compat_r; assumption. }
  lra.
Qed.

(** One more step: the sum over [a1 ++ c :: a2] is the sum over [a1], the
    term [c * x ** (-d)] and the sum over [a2]. *)
Lemma weighted_sum_mid (a1 a2 e1 e2 : list Q) (c d x A t B : Q) :
  List.length a1 = List.length e1 ->
  weighted_sum xpow a1 e1 x = Some A -> xpow x d = Some t ->
  weighted_sum xpow a2 e2 x = Some B ->
  exists S, weighted_sum xpow (a1 ++ c :: a2) (e1 ++ d :: e2) x = Some S /\
            S == A + (c * t + B).
Proof.
  intros Hl HA Ht HB.
  apply (weighted_sum_app a1 (c :: a2) e1 (d :: e2) x A (c * t + B) Hl HA).
  simpl. rewrite Ht, HB. reflexivity.
Qed.

Lemma weighted_sum_coef_lt (a1 a2 e1 e2 : list Q) (c1 c2 d x s1 s2 : Q) :
  List.length a1 = List.length e1 -> 0 < x ->
  Forall (decreasing_power xpow) (e1 ++ d :: e2) -> c1 < c2 ->
  weighted_sum xpow (a1 ++ c1 :: a2) (e1 ++ d :: e2) x = Some s1 ->
  weighted_sum xpow (a1 ++ c2 :: a2) (e1 ++ d :: e2) x = Some s2 ->
  s1 < s2.
Proof.
  intros Hl Hx Hd Hc H1 H2.
  apply Forall_app in Hd as [Hd1 Hd2]. inversion Hd2 as [|? ? [Hp _] Hd3]; subst.
  destruct (weighted_sum_some a1 e1 x Hx Hd1) as [A HA].
  destruct (weighted_sum_some a2 e2 x Hx Hd3) as [B HB].
  destruct (Hp x Hx) as [t [Ht Htp]].
  destruct (weighted_sum_mid a1 a2 e1 e2 c1 d x A t B Hl HA Ht HB) as [S1 [HS1 Hq1]].
  destruct (weighted_sum_mid a1 a2 e1 e2 c2 d x A t B Hl HA Ht HB) as [S2 [HS2 Hq2]].
  rewrite HS1 in H1. rewrite HS2 in H2. injection H1 as <-. injection H2 as <-.
  assert (c1 * t < c2 * t) by (apply Qmult_lt_compat_r; assumption).
  lra.
Qed.

Lemma weighted_sum_delta_lt (a1 a2 e1 e2 : list Q) (c d1 d2 x s1 s2 : Q) :
  List.length a1 = List.length e1 -> 1 < x -> 0 < c ->
  Forall (decreasing_power xpow) (e1 ++ e2) ->
  decreasing_power xpow d1 -> decreasing_power xpow d2 ->
  (forall x t u, 1 < x -> xpow x d1 = Some t -> xpow x d2 = Some u -> u < t) ->
  weighted_sum xpow (a1 ++ c :: a2) (e1 ++ d1 :: e2) x = Some s1 ->
  weighted_sum xpow (a1 ++ c :: a2) (e1 ++ d2 :: e2) x = Some s2 ->
  s2 < s1.
Proof.
  intros Hl Hx Hc Hd [Hp1 _] [Hp2 _] Hdd H1 H2.
  assert (Hx0 : 0 < x) by lra.
  apply Forall_app in Hd as [Hd1 Hd3].
  destruct (weighted_sum_some a1 e1 x Hx0 Hd1) as [A HA].
  destruct (weighted_sum_some a2 e2 x Hx0 Hd3) as [B HB].
  destruct (Hp1 x Hx0) as [t [Ht _]]. destruct (Hp2 x Hx0) as [u [Hu _]].
  destruct (weighted_sum_mid a1 a2 e1 e2 c d1 x A t B Hl HA Ht HB) as [S1 [HS1 Hq1]].
  destruct (weighted_sum_mid a1 a2 e1 e2 c d2 x A u B Hl HA Hu HB) as [S2 [HS2 Hq2]].
  rewrite HS1 in H1. rewrite HS2 in H2. injection H1 as <-. injection H2 as <-.
  pose proof (Hdd x t u Hx Ht Hu) as Hut.
  assert (c * u < c * t) by (rewrite !(Qmult_comm c); apply Qmult_lt_compat_r; assumption).
  lra.
Qed.

(** At [x = 1] every power is [1], whatever the deltas. *)
Lemma weighted_sum_one_deltas (cs ds ds' : list Q) :
  (forall e, xpow 1 e = Some 1) -> List.length ds = List.length ds' ->
  weighted_sum xpow cs ds 1 = weighted_sum xpow cs ds' 1.
Proof.
  intros Hone. revert cs ds'.
  induction ds as [|d ds IH]; intros [|c cs] [|d' ds'] Hl; try discriminate; try reflexivity.
  injection Hl as Hl. simpl. rewrite !Hone, (IH cs ds' Hl). reflexivity.
Qed.

Lemma g_rec_at_one (cs ds : list Q) (w : Q) :
  weighted_sum xpow cs ds 1 = Some w -> g_rec xpow cs ds 1 = Some (w - 1).
Proof.
  intros H. unfold g_rec. replace (Qle_bool 1 0) with false by reflexivity.
  rewrite H. reflexivity.
Qed.

Lemma g_rec_root (cs ds : list Q) (r y : Q) :
  g_rec xpow cs ds r = Some y -> y == 0 ->
  exists s, weighted_sum xpow cs ds r = Some s /\ s == 1.
Proof.
  intros H Hy. unfold g_rec in H. destruct (Qle_bool r 0); [discriminate|].
  destruct (weighted_sum xpow cs ds r) as [s|]; [|discriminate].
  injection H as <-. exists s. split; [reflexivity|]. lra.
Qed.

(** The results of [solve_terms] other than the sentinel: [1.0] when
    [|g(1)| < 1e-12], else a root that [brentq] returned. *)
Lemma solve_terms_non_sentinel (cs ds : list Q) (g1 q : Q) :
  cs <> [] -> Forall (fun d => 0 < d) ds -> g_rec xpow cs ds 1 = Some g1 ->
  solve_terms xpow brentq cs ds = Fin q -> q <> PENALTY ->
  (Qabs g1 < eps12 /\ q = 1) \/
  (eps12 <= Qabs g1 /\ 0 <= g1 /\
   exists b r, brentq (g_rec xpow cs ds) 1 b = Converged r /\ q = snap_int r).
Proof.
  intros Hne Hpos Hg Hs Hq. destruct cs as [|c cs']; [congruence|].
  unfold solve_terms in Hs. rewrite (existsb_nonpos_false ds Hpos) in Hs.
  cbv beta iota zeta in Hs. rewrite Hg in Hs.
  destruct (Qltb (Qabs g1) eps12) eqn:E1.
  - left. injection Hs as <-. split; [apply Qltb_iff; exact E1|reflexivity].
  - apply Qltb_false in E1.
    destruct (Qltb g1 0) eqn:E2; [injection Hs as <-; congruence|].
    apply Qltb_false in E2.
    destruct (find_bracket _ 50 2) as [b|]; [|injection Hs as <-; congruence].
    destruct (brentq _ 1 b) as [r| |] eqn:E3; injection Hs as <-; try congruence.
    right. split; [exact E1|]. split; [exact E2|]. exists b, r. auto.
Qed.

(** A root finder that returns exact roots inside its bracket. *)
Hypothesis brentq_root : forall g a b r,
  brentq g a b = Converged r -> a <= r /\ exists y, g r = Some y /\ y == 0.

Lemma solve_terms_coef_mono (a1 a2 e1 e2 : list Q) (c1 c2 d q1 q2 : Q) :
  List.length a1 = List.length e1 -> List.length a2 = List.length e2 ->
  0 < c1 -> c1 < c2 -> Forall (fun c => 0 < c) (a1 ++ a2) ->
  Forall (fun d => 0 < d /\ decreasing_power xpow d) (e1 ++ d :: e2) ->
  solve_terms xpow brentq (a1 ++ c1 :: a2) (e1 ++ d :: e2) = Fin q1 ->
  solve_terms xpow brentq (a1 ++ c2 :: a2) (e1 ++ d :: e2) = Fin q2 ->
  q1 <> PENALTY -> q2 <> PENALTY -> q1 <= q2.
Proof.
  intros Hl1 Hl2 Hc1 Hc Hcs Hds Hs1 Hs2 Hq1 Hq2.
  set (ds := e1 ++ d :: e2) in *.
  destruct (Forall_and_inv _ _ Hds) as [Hdpos Hdp].
  assert (Hne : forall c, a1 ++ c :: a2 <> []) by (intros c; destruct a1; discriminate).
  assert (Hpos : forall c, 0 < c -> Forall (fun c => 0 < c) (a1 ++ c :: a2)).
  { intros c Hc0. apply Forall_app in Hcs as [H1 H2]. apply Forall_app. auto. }
  assert (Hlen : forall c, List.length (a1 ++ c :: a2) = List.length ds).
  { intros c. unfold ds. rewrite !length_app. simpl. lia. }
  assert (H01 : (0 < 1)%Q) by lra.
  destruct (weighted_sum_some (a1 ++ c1 :: a2) ds 1 H01 Hdp) as [w1 Hw1].
  destruct (weighted_sum_some (a1 ++ c2 :: a2) ds 1 H01 Hdp) as [w2 Hw2].
  pose proof (weighted_sum_coef_lt a1 a2 e1 e2 c1 c2 d 1 w1 w2 Hl1 H01 Hdp Hc Hw1 Hw2) as Hw.
  destruct (solve_terms_non_sentinel _ _ _ q1 (Hne c1) Hdpos (g_rec_at_one _ _ _ Hw1) Hs1 Hq1)
    as [[Ha1 ->]|(Ha1 & Hg1 & b1 & r1 & Hr1 & ->)];
  destruct (solve_terms_non_sentinel _ _ _ q2 (Hne c2) Hdpos (g_rec_at_one _ _ _ Hw2) Hs2 Hq2)
    as [[Ha2 ->]|(Ha2 & Hg2 & b2 & r2 & Hr2 & ->)].
  - lra.
  - destruct (brentq_root _ _ _ _ Hr2) as [Hr2' _].
    rewrite <- snap_int_one. apply snap_int_mono. exact Hr2'.
  - exfalso. rewrite Qabs_pos in Ha1 by exact Hg1.
    apply Qabs_Qlt_condition in Ha2. lra.
  - destruct (brentq_root _ _ _ _ Hr1) as [Hr1' (y1 & Hy1 & Hy1')].
    destruct (brentq_root _ _ _ _ Hr2) as [Hr2' (y2 & Hy2 & Hy2')].
    destruct (g_rec_root _ _ _ _ Hy1 Hy1') as (s1 & Hs1r & Hs1q).
    destruct (g_rec_root _ _ _ _ Hy2 Hy2') as (s2 & Hs2r & Hs2q).
    apply snap_int_mono.
    destruct (Qlt_le_dec r2 r1) as [Hlt|Hle]; [exfalso|exact Hle].
    assert (Hr10 : 0 < r1) by lra. assert (Hr20 : 0 < r2) by lra.
    destruct (weighted_sum_some (a1 ++ c2 :: a2) ds r1 Hr10 Hdp) as [s Hs].
    pose proof (weighted_sum_strict _ _ r2 r1 s2 s (Hpos c2 ltac:(lra)) Hdp (Hlen c2)
                  (Hne c2) Hr20 Hlt Hs2r Hs) as H1.
    pose proof (weighted_sum_coef_lt a1 a2 e1 e2 c1 c2 d r1 s1 s Hl1 Hr10 Hdp Hc Hs1r Hs) as H2.
    lra.
Qed.

Lemma solve_terms_delta_mono (a1 a2 e1 e2 : list Q) (c d1 d2 q1 q2 : Q) :
  (forall e, xpow 1 e = Some 1) ->
  List.length a1 = List.length e1 -> List.length a2 = List.length e2 ->
  0 < c -> Forall (fun c => 0 < c) (a1 ++ a2) ->
  Forall (fun d => 0 < d /\ decreasing_power xpow d) (e1 ++ d1 :: e2) ->
  0 < d2 -> decreasing_power xpow d2 ->
  (forall x t u, 1 < x -> xpow x d1 = Some t -> xpow x d2 = Some u -> u < t) ->
  solve_terms xpow brentq (a1 ++ c :: a2) (e1 ++ d1 :: e2) = Fin q1 ->
  solve_terms xpow brentq (a1 ++ c :: a2) (e1 ++ d2 :: e2) = Fin q2 ->
  q1 <> PENALTY -> q2 <> PENALTY -> q2 <= q1.
Proof.
  intros Hone Hl1 Hl2 Hc Hcs Hds Hd2 Hdp2 Hdd Hs1 Hs2 Hq1 Hq2.
  set (cs := a1 ++ c :: a2) in *.
  apply Forall_app in Hds as [He1 He2']. inversion He2' as [|? ? [Hd1 Hdp1] He2]; subst.
  destruct (Forall_and_inv _ _ He1) as [Hp1 Hq1'].
  destruct (Forall_and_inv _ _ He2) as [Hp2 Hq2'].
  assert (Hdp : Forall (decreasing_power xpow) (e1 ++ e2)) by (apply Forall_app; auto).
  assert (Hdpos1 : Forall (fun d => 0 < d) (e1 ++ d1 :: e2)) by (apply Forall_app; auto).
  assert (Hdpos2 : Forall (fun d => 0 < d) (e1 ++ d2 :: e2)) by (apply Forall_app; auto).
  assert (Hdp1' : Forall (decreasing_power xpow) (e1 ++ d1 :: e2)).
  { apply Forall_app in Hdp as [H1 H2]. apply Forall_app. auto. }
  assert (Hdp2' : Forall (decreasing_power xpow) (e1 ++ d2 :: e2)).
  { apply Forall_app in Hdp as [H1 H2]. apply Forall_app. auto. }
  assert (Hne : cs <> []) by (unfold cs; destruct a1; discriminate).
  assert (Hpos : Forall (fun c => 0 <= c) cs).
  { unfold cs. apply Forall_app in Hcs as [H1 H2]. apply Forall_app.
    split; [|constructor; [lra|]];
      apply (Forall_impl _ (fun c (H : 0 < c) => Qlt_le_weak _ _ H)); assumption. }
  assert (H01 : (0 < 1)%Q) by lra.
  destruct (weighted_sum_some cs (e1 ++ d1 :: e2) 1 H01 Hdp1') as [w Hw1].
  assert (Hw2 : weighted_sum xpow cs (e1 ++ d2 :: e2) 1 = Some w).
  { rewrite <- Hw1. apply weighted_sum_one_deltas; [exact Hone|].
    rewrite !length_app. reflexivity. }
  destruct (solve_terms_non_sentinel _ _ _ q1 Hne Hdpos1 (g_rec_at_one _ _ _ Hw1) Hs1 Hq1)
    as [[Ha1 ->]|(Ha1 & Hg1 & b1 & r1 & Hr1 & ->)];
  destruct (solve_terms_non_sentinel _ _ _ q2 Hne Hdpos2 (g_rec_at_one _ _ _ Hw2) Hs2 Hq2)
    as [[Ha2 ->]|(Ha2 & Hg2 & b2 & r2 & Hr2 & ->)]; try lra.
  destruct (brentq_root _ _ _ _ Hr1) as [Hr1' (y1 & Hy1 & Hy1')].
  destruct (brentq_root _ _ _ _ Hr2) as [Hr2' (y2 & Hy2 & Hy2')].
  destruct (g_rec_root _ _ _ _ Hy1 Hy1') as (s1 & Hs1r & Hs1q).
  destruct (g_rec_root _ _ _ _ Hy2 Hy2') as (s2 & Hs2r & Hs2q).
  apply snap_int_mono.
  destruct (Qlt_le_dec r1 r2) as [Hlt|Hle]; [exfalso|exact Hle].
  assert (Hr10 : 0 < r1) by lra. assert (Hr2g : 1 < r2) by lra.
  destruct (weighted_sum_some cs (e1 ++ d1 :: e2) r2 ltac:(lra) Hdp1') as [s Hs].
  pose proof (weighted_sum_antitone _ _ r1 r2 s1 s Hpos Hdp1' Hr10 (Qlt_le_weak _ _ Hlt)
                Hs1r Hs) as H1.
  pose proof (weighted_sum_delta_lt a1 a2 e1 e2 c d1 d2 r2 s s2 Hl1 Hr2g Hc Hdp
                Hdp1 Hdp2 Hdd Hs Hs2r) as H2.
  lra.
Qed.

End MonotoneRoots.

Lemma brent_roots_root (cands : list Q) (g : Q -> option Q) (a b r : Q) :
  brent_roots cands g a b = Converged r -> a <= r /\ exists y, g r = Some y /\ y == 0.
Proof.
  induction cands as [|r' rs IH]; simpl; [discriminate|].
  destruct (Qle_bool a r') eqn:E1; simpl; [|exact IH].
  destruct (Qle_bool r' b); [|exact IH].
  destruct (g r') as [y|] eqn:Eg; [|exact IH].
  destruct (Qeq_bool y 0) eqn:E0; [|exact IH].
  intros H. injection H as <-. apply Qle_bool_iff in E1. apply Qeq_bool_iff in E0.
  split; [exact E1|]. exists y. auto.
Qed.

Lemma decreasing_power_inv (xpow : Q -> Q -> option Q) (d : Q) (f : Q -> Q) :
  (forall x, 0 < x -> exists t, xpow x d = Some t /\ t == / f x) ->
  (forall x, 0 < x -> 0 < f x) ->
  (forall x y, 0 < x -> x <= y -> f x <= f y) ->
  (forall x y, 0 < x -> x < y -> f x < f y) ->
  decreasing_power xpow d.
Proof.
  intros Hv Hf0 Hle Hlt. split; [|split].
  - intros x Hx. destruct (Hv x Hx) as [t [Ht Hq]]. exists t. split; [exact Ht|].
    rewrite Hq. apply Qinv_lt_0_compat. auto.
  - intros x y t u Hx Hxy Ht Hu.
    destruct (Hv x Hx) as [t' [Ht' Hq]]. rewrite Ht in Ht'. injection Ht' as <-.
    destruct (Hv y ltac:(lra)) as [u' [Hu' Hq']]. rewrite Hu in Hu'. injection Hu' as <-.
    rewrite Hq, Hq'. destruct (Qle_lt_or_eq _ _ Hxy) as [H|H].
    + apply Qlt_le_weak.
      apply (proj1 (Qinv_lt_contravar (f x) (f y) (Hf0 x Hx) (Hf0 y ltac:(lra)))).
      apply Hlt; assumption.
    + assert (f x == f y) by (apply Qle_antisym; apply Hle; try lra; rewrite H; lra).
      rewrite H0. apply Qle_refl.
  - intros x y t u Hx Hxy Ht Hu.
    destruct (Hv x Hx) as [t' [Ht' Hq]]. rewrite Ht in Ht'. injection Ht' as <-.
    destruct (Hv y ltac:(lra)) as [u' [Hu' Hq']]. rewrite Hu in Hu'. injection Hu' as <-.
    rewrite Hq, Hq'.
    apply (proj1 (Qinv_lt_contravar (f x) (f y) (Hf0 x Hx) (Hf0 y ltac:(lra)))).
    apply Hlt; assumption.
Qed.

Lemma exact_xpow_1 (x : Q) : 0 < x -> exists t, exact_xpow x 1 = Some t /\ t == / x.
Proof.
  intros Hx. unfold exact_xpow. destruct (Qeq_bool x 1) eqn:E.
  - apply Qeq_bool_iff in E. exists 1. split; [reflexivity|]. rewrite E. reflexivity.
  - eexists. split; [reflexivity|]. reflexivity.
Qed.

Lemma exact_xpow_2 (x : Q) : 0 < x -> exists t, exact_xpow x 2 = Some t /\ t == / (x * x).
Proof.
  intros Hx. unfold exact_xpow. destruct (Qeq_bool x 1) eqn:E.
  - apply Qeq_bool_iff in E. exists 1. split; [reflexivity|]. rewrite E. reflexivity.
  - eexists. split; [reflexivity|]. reflexivity.
Qed.

Lemma decreasing_power_exact_1 : decreasing_power exact_xpow 1.
Proof.
  apply (decreasing_power_inv _ _ (fun x => x)); [exact exact_xpow_1|..];
    intros; lra.
Qed.

Lemma decreasing_power_exact_2 : decreasing_power exact_xpow 2.
Proof.
  apply (decreasing_power_inv _ _ (fun x => x * x)); [exact exact_xpow_2|..];
    intros; nra.
Qed.

Lemma exact_xpow_1_2 (x t u : Q) :
  1 < x -> exact_xpow x 1 = Some t -> exact_xpow x 2 = Some u -> u < t.
Proof.
  intros Hx Ht Hu.
  destruct (exact_xpow_1 x ltac:(lra)) as [t' [Ht' Hq]]. rewrite Ht in Ht'. injection Ht' as <-.
  destruct (exact_xpow_2 x ltac:(lra)) as [u' [Hu' Hq']]. rewrite Hu in Hu'. injection Hu' as <-.
  rewrite Hq, Hq'.
  apply (proj1 (Qinv_lt_contravar x (x * x) ltac:(lra) ltac:(nra))). nra.
Qed.

(** C7 (amended).  Between two results that are not the sentinel [1e6],
    [solve_recurrence] is monotone: for positive coefficients and deltas,
    a power [x ** (-d)] that is positive and decreasing in [x], and a root
    finder returning exact roots, raising one coefficient never lowers the
    result, and raising one delta (where [x ** (-d)] decreases in [d] for
    [x > 1]) never raises it. *)
Theorem solve_recurrence_monotone_roots xpow brentq
  (Hone : forall e, xpow 1 e = Some 1)
  (Hbrent : forall g a b r,
     brentq g a b = Converged r -> a <= r /\ exists y, g r = Some y /\ y == 0) :
  (forall (rec1 rec2 : Recurrence) (pre post : list Term) (t1 t2 : FunctionTerm)
          (v : string) (ds : list Q) (q1 q2 : Q),
     lhs rec1 = lhs rec2 -> vars (lhs rec1) = [v] ->
     rhs rec1 = pre ++ FT t1 :: post -> rhs rec2 = pre ++ FT t2 :: post ->
     shifts t1 = shifts t2 -> coef t1 < coef t2 ->
     Forall (fun c => 0 < c) (rec_coefs rec1) ->
     opt_map first_delta (func_terms (rhs rec1)) = Some ds ->
     Forall (fun d => 0 < d /\ decreasing_power xpow d) ds ->
     solve_recurrence xpow brentq rec1 = Some (Fin q1) ->
     solve_recurrence xpow brentq rec2 = Some (Fin q2) ->
     q1 <> PENALTY -> q2 <> PENALTY -> q1 <= q2) /\
  (forall (rec1 rec2 : Recurrence) (pre post : list Term) (t1 t2 : FunctionTerm)
          (v : string) (s1 s2 : Q) (ss1 ss2 ds : list Q) (q1 q2 : Q),
     lhs rec1 = lhs rec2 -> vars (lhs rec1) = [v] ->
     rhs rec1 = pre ++ FT t1 :: post -> rhs rec2 = pre ++ FT t2 :: post ->
     coef t1 = coef t2 -> shifts t1 = s1 :: ss1 -> shifts t2 = s2 :: ss2 -> - s1 < - s2 ->
     Forall (fun c => 0 < c) (rec_coefs rec1) ->
     opt_map first_delta (func_terms (rhs rec1)) = Some ds ->
     Forall (fun d => 0 < d /\ decreasing_power xpow d) ds ->
     decreasing_power xpow (- s2) ->
     (forall x t u, 1 < x -> xpow x (- s1) = Some t -> xpow x (- s2) = Some u -> u < t) ->
     solve_recurrence xpow brentq rec1 = Some (Fin q1) ->
     solve_recurrence xpow brentq rec2 = Some (Fin q2) ->
     q1 <> PENALTY -> q2 <> PENALTY -> q2 <= q1).
Proof.
  split.
  - intros rec1 rec2 pre post t1 t2 v ds q1 q2 Hl Hv H1 H2 Hsh Hc Hcs Hd Hds Hs1 Hs2 Hq1 Hq2.
    assert (Hf1 : func_terms (rhs rec1) = func_terms pre ++ t1 :: func_terms post)
      by (rewrite H1, func_terms_app; reflexivity).
    assert (Hf2 : func_terms (rhs rec2) = func_terms pre ++ t2 :: func_terms post)
      by (rewrite H2, func_terms_app; reflexivity).
    rewrite Hf1 in Hd.
    destruct (opt_map_app_inv _ _ _ _ _ Hd) as (e1 & d & e2 & -> & He1 & Hx & He2).
    assert (Hd2 : opt_map first_delta (func_terms (rhs rec2)) = Some (e1 ++ d :: e2)).
    { rewrite Hf2. apply opt_map_app_cons; try assumption.
      rewrite <- Hx. unfold first_delta. rewrite Hsh. reflexivity. }
    rewrite <- Hf1 in Hd. rewrite Hl in Hv.
    rewrite (solve_recurrence_terms xpow brentq rec1 v _ ltac:(rewrite <- Hl in Hv; exact Hv) Hd)
      in Hs1.
    rewrite (solve_recurrence_terms xpow brentq rec2 v _ Hv Hd2) in Hs2.
    injection Hs1 as Hs1. injection Hs2 as Hs2.
    unfold rec_coefs in Hs1, Hs2, Hcs. rewrite Hf1, map_app in Hs1, Hcs.
    rewrite Hf2, map_app in Hs2. simpl in Hs1, Hs2, Hcs.
    apply Forall_app in Hcs as [Hc1 Hc2]. inversion Hc2 as [|? ? Hc0 Hc3]; subst.
    apply (solve_terms_coef_mono xpow brentq Hbrent (map coef (func_terms pre))
             (map coef (func_terms post)) e1 e2 (coef t1) (coef t2) d); try assumption.
    + rewrite length_map. symmetry. exact (opt_map_length _ _ _ He1).
    + rewrite length_map. symmetry. exact (opt_map_length _ _ _ He2).
    + apply Forall_app. auto.
  - intros rec1 rec2 pre post t1 t2 v s1 s2 ss1 ss2 ds q1 q2 Hl Hv H1 H2 Hc Hsh1 Hsh2 Hlt
      Hcs Hd Hds Hdp2 Hdd Hs1 Hs2 Hq1 Hq2.
    assert (Hf1 : func_terms (rhs rec1) = func_terms pre ++ t1 :: func_terms post)
      by (rewrite H1, func_terms_app; reflexivity).
    assert (Hf2 : func_terms (rhs rec2) = func_terms pre ++ t2 :: func_terms post)
      by (rewrite H2, func_terms_app; reflexivity).
    rewrite Hf1 in Hd.
    destruct (opt_map_app_inv _ _ _ _ _ Hd) as (e1 & d & e2 & -> & He1 & Hx & He2).
    unfold first_delta in Hx. rewrite Hsh1 in Hx. injection Hx as <-.
    assert (Hd2 : opt_map first_delta (func_terms (rhs rec2)) = Some (e1 ++ - s2 :: e2)).
    { rewrite Hf2. apply opt_map_app_cons; try assumption.
      unfold first_delta. rewrite Hsh2. reflexivity. }
    rewrite <- Hf1 in Hd. rewrite Hl in Hv.
    rewrite (solve_recurrence_terms xpow brentq rec1 v _ ltac:(rewrite <- Hl in Hv; exact Hv) Hd)
      in Hs1.
    rewrite (solve_recurrence_terms xpow brentq rec2 v _ Hv Hd2) in Hs2.
    injection Hs1 as Hs1. injection Hs2 as Hs2.
    unfold rec_coefs in Hs1, Hs2, Hcs. rewrite Hf1, map_app in Hs1, Hcs.
    rewrite Hf2, map_app in Hs2. simpl in Hs1, Hs2, Hcs. rewrite <- Hc in Hs2.
    apply Forall_app in Hcs as [Hc1 Hc2]. inversion Hc2 as [|? ? Hc0 Hc3]; subst.
    assert (Hd1 : 0 < - s1).
    { apply Forall_app in Hds as [_ Hds']. inversion Hds' as [|? ? [H _] _]. exact H. }
    apply (solve_terms_delta_mono xpow brentq Hbrent (map coef (func_terms pre))
             (map coef (func_terms post)) e1 e2 (coef t1) (- s1) (- s2)); try assumption.
    + rewrite length_map. symmetry. exact (opt_map_length _ _ _ He1).
    + rewrite length_map. symmetry. exact (opt_map_length _ _ _ He2).
    + apply Forall_app. auto.
    + lra.
Qed.

Lemma solve_recurrence_monotone_roots_witness :
  exists rec1 rec2 rec3 rec4,
    parse_recurrence "T(n) = 2*T(n-1)" = Some rec1 /\
    parse_recurrence "T(n) = 3*T(n-1)" = Some rec2 /\
    solve_recurrence exact_xpow (brent_roots [2; 3; 4]) rec1 = Some (Fin 2) /\
    solve_recurrence exact_xpow (brent_roots [2; 3; 4]) rec2 = Some (Fin 3) /\
    parse_recurrence "T(n) = 4*T(n-1)" = Some rec3 /\
    parse_recurrence "T(n) = 4*T(n-2)" = Some rec4 /\
    solve_recurrence exact_xpow (brent_roots [2; 3; 4]) rec3 = Some (Fin 4) /\
    solve_recurrence exact_xpow (brent_roots [2; 3; 4]) rec4 = Some (Fin 2) /\
    (2 <= 3 /\ 2 <= 4).
Proof.
  destruct (solve_recurrence_monotone_roots exact_xpow (brent_roots [2; 3; 4])
              (fun e => eq_refl) (brent_roots_root [2; 3; 4])) as [Hc Hd].
  set (r1 := match parse_recurrence "T(n) = 2*T(n-1)" with Some r => r | None => fib_rec end).
  set (r2 := match parse_recurrence "T(n) = 3*T(n-1)" with Some r => r | None => fib_rec end).
  set (r3 := match parse_recurrence "T(n) = 4*T(n-1)" with Some r => r | None => fib_rec end).
  set (r4 := match parse_recurrence "T(n) = 4*T(n-2)" with Some r => r | None => fib_rec end).
  exists r1, r2, r3, r4.
  split; [vm_compute; reflexivity|]. split; [vm_compute; reflexivity|].
  split; [vm_compute; reflexivity|]. split; [vm_compute; reflexivity|].
  split; [vm_compute; reflexivity|]. split; [vm_compute; reflexivity|].
  split; [vm_compute; reflexivity|]. split; [vm_compute; reflexivity|].
  split.
  - eapply (Hc r1 r2 [] [] _ _ "n"%string [1] 2 3).
    + vm_compute. reflexivity.
    + vm_compute. reflexivity.
    + vm_compute. reflexivity.
    + vm_compute. reflexivity.
    + vm_compute. reflexivity.
    + vm_compute. reflexivity.
    + vm_compute. repeat constructor.
    + vm_compute. reflexivity.
    + constructor; [split; [lra|exact decreasing_power_exact_1]|constructor].
    + vm_compute. reflexivity.
    + vm_compute. reflexivity.
    + unfold PENALTY. discriminate.
    + unfold PENALTY. discriminate.
  - eapply (Hd r3 r4 [] [] _ _ "n"%string (-1) (-2) [] [] [1] 4 2).
    + vm_compute. reflexivity.
    + vm_compute. reflexivity.
    + vm_compute. reflexivity.
    + vm_compute. reflexivity.
    + vm_compute. reflexivity.
    + vm_compute. reflexivity.
    + vm_compute. reflexivity.
    + lra.
    + vm_compute. repeat constructor.
    + vm_compute. reflexivity.
    + constructor; [split; [lra|exact decreasing_power_exact_1]|constructor].
    + exact decreasing_power_exact_2.
    + exact exact_xpow_1_2.
    + vm_compute. reflexivity.
    + vm_compute. reflexivity.
    + unfold PENALTY. discriminate.
    + unfold PENALTY. discriminate.
Defined.

(** C7 counterexample.  Coefficient half: ["T(n) = 0.5*T(n-1)"] and
    ["T(n) = T(n-1)"] differ only in one coefficient, [0.5 < 1], and the one
    with the larger coefficient has the strictly smaller result, [1.0 < 1e6].
    Delta half: ["T(n) = 4000000000000*T(n-1)"] and
    ["T(n) = 4000000000000*T(n-2)"] differ only in one delta, [1 < 2]; the
    first gives up the bracket search past [1e12] and returns the sentinel
    [1e6], the second has the exact root [2e6] and returns it: the one with
    the larger delta has the strictly larger result. *)
Lemma monotonicity_counterexample :
  exists rec1 rec2 rec3 rec4 t1 t2 t3 t4,
    parse_recurrence "T(n) = 0.5*T(n-1)" = Some rec1 /\
    parse_recurrence "T(n) = T(n-1)" = Some rec2 /\
    lhs rec1 = lhs rec2 /\
    rhs rec1 = [FT t1] /\ rhs rec2 = [FT t2] /\
    shifts t1 = shifts t2 /\ coef t1 < coef t2 /\
    solve_recurrence exact_xpow (brent_roots [2000000]) rec1 = Some (Fin PENALTY) /\
    solve_recurrence exact_xpow (brent_roots [2000000]) rec2 = Some (Fin 1) /\
    1 < PENALTY /\
    parse_recurrence "T(n) = 4000000000000*T(n-1)" = Some rec3 /\
    parse_recurrence "T(n) = 4000000000000*T(n-2)" = Some rec4 /\
    lhs rec3 = lhs rec4 /\
    rhs rec3 = [FT t3] /\ rhs rec4 = [FT t4] /\
    coef t3 = coef t4 /\ first_delta t3 = Some 1 /\ first_delta t4 = Some 2 /\
    solve_recurrence exact_xpow (brent_roots [2000000]) rec3 = Some (Fin PENALTY) /\
    solve_recurrence exact_xpow (brent_roots [2000000]) rec4 = Some (Fin 2000000) /\
    (exists y, g_rec exact_xpow [4000000000000] [2] 2000000 = Some y /\ y == 0) /\
    PENALTY < 2000000.
Proof.
  do 8 eexists.
  split; [vm_compute; reflexivity|]. split; [vm_compute; reflexivity|].
  split; [reflexivity|]. split; [reflexivity|]. split; [reflexivity|].
  split; [reflexivity|]. split; [vm_compute; reflexivity|].
  split; [vm_compute; reflexivity|]. split; [vm_compute; reflexivity|].
  split; [vm_compute; reflexivity|].
  split; [vm_compute; reflexivity|]. split; [vm_compute; reflexivity|].
  split; [reflexivity|]. split; [reflexivity|]. split; [reflexivity|].
  split; [reflexivity|]. split; [vm_compute; reflexivity|]. split; [vm_compute; reflexivity|].
  split; [vm_compute; reflexivity|]. split; [vm_compute; reflexivity|].
  split; [eexists; split; [vm_compute; reflexivity|]; vm_compute; reflexivity|].
  vm_compute. reflexivity.
Qed.

(* ================================================================== *)
(** ** C8: the invariants the constructors check *)

Import PyObjects.

(** C8 (amended).  [FunctionTerm(...)] raises exactly when the [vars] and
    [shifts] lists have different lengths at construction time, and
    [Recurrence(...)] raises exactly when [lhs.coef != 1] or some element
    of [lhs.shifts] is nonzero at that time; an object the constructors
    return satisfies the invariant in the store it was built in.  Both
    dataclasses are mutable and hold the caller's list objects, so later
    stores need not satisfy it. *)
Theorem constructors_check_invariants :
  (forall h c f vl sl,
     FunctionTerm_init h c f vl sl = None <->
     List.length (h vl) <> List.length (h sl)) /\
  (forall h c f vl sl o, FunctionTerm_init h c f vl sl = Some o -> ft_inv h o) /\
  (forall h l r,
     Recurrence_init h l r = None <->
     ~ (o_coef l == 1 /\ Forall (fun v => py_ne_zero v = false) (h (o_shifts l)))) /\
  (forall h l r o, Recurrence_init h l r = Some o -> rec_inv h o).
Proof.
  split; [|split; [|split]].
  - intros h c f vl sl. unfold FunctionTerm_init.
    destruct (Nat.eqb (List.length (h vl)) (List.length (h sl))) eqn:E; simpl.
    + apply Nat.eqb_eq in E. split; [discriminate|]. intros H. contradiction.
    + apply Nat.eqb_neq in E. tauto.
  - intros h c f vl sl o. unfold FunctionTerm_init, ft_inv.
    destruct (Nat.eqb (List.length (h vl)) (List.length (h sl))) eqn:E; simpl;
      [|discriminate].
    intros H. injection H as <-. simpl. apply Nat.eqb_eq. exact E.
  - intros h l r. unfold Recurrence_init.
    rewrite Forall_forall.
    destruct (Qeq_bool (o_coef l) 1) eqn:E1; simpl.
    + apply Qeq_bool_iff in E1.
      destruct (existsb py_ne_zero (h (o_shifts l))) eqn:E2.
      * apply existsb_exists in E2 as [x [Hx Hnz]].
        split; [intros _ [_ H]|reflexivity]. rewrite (H x Hx) in Hnz. discriminate.
      * split; [discriminate|]. intros H. exfalso. apply H. split; [exact E1|].
        intros x Hx. destruct (py_ne_zero x) eqn:E3; [|reflexivity].
        rewrite <- E2. symmetry. apply existsb_exists. exists x. split; assumption.
    + split; [|reflexivity]. intros _ [H _].
      apply Qeq_bool_iff in H. congruence.
  - intros h l r o. unfold Recurrence_init, rec_inv.
    destruct (Qeq_bool (o_coef l) 1) eqn:E1; simpl; [|discriminate].
    destruct (existsb py_ne_zero (h (o_shifts l))) eqn:E2; [discriminate|].
    intros H. injection H as <-. simpl. split; [apply Qeq_bool_iff; exact E1|].
    apply Forall_forall. intros x Hx. destruct (py_ne_zero x) eqn:E3; [|reflexivity].
    rewrite <- E2. symmetry. apply existsb_exists. exists x. split; assumption.
Qed.

Lemma constructors_check_invariants_witness :
  ft_inv store0 (mkFTObj 1 "T"%string 0%nat 1%nat).
Proof.
  apply (proj1 (proj2 constructors_check_invariants) store0 1 "T"%string 0%nat 1%nat).
  reflexivity.
Defined.

(** C8 counterexample: [FunctionTerm(1.0, "T", vs, shifts)] and
    [Recurrence(lhs, [])] succeed on [vs = ["n"]] and [shifts = [0.0]];
    afterwards [vs.append("m")] breaks [len(vars) == len(shifts)] of the
    term, and [shifts[0] = 1.0] breaks the all-zero shifts of the
    recurrence's [lhs], with no exception raised. *)
Lemma mutation_counterexample :
  exists o r h',
    FunctionTerm_init store0 1 "T" 0%nat 1%nat = Some o /\
    ft_inv store0 o /\
    ~ ft_inv (list_append store0 0%nat (VStr "m")) o /\
    Recurrence_init store0 o 2%nat = Some r /\
    rec_inv store0 r /\
    list_setitem store0 1%nat 0%nat (VNum 1) = Some h' /\
    ~ rec_inv h' r.
Proof.
  do 3 eexists.
  split; [reflexivity|]. split; [reflexivity|].
  split; [unfold ft_inv; simpl; discriminate|].
  split; [reflexivity|].
  split; [split; [reflexivity|repeat constructor]|].
  split; [reflexivity|].
  unfold rec_inv. simpl. intros [_ H]. inversion H as [|x l Hx _]. discriminate.
Qed.

(* ================================================================== *)
(** * Further properties of the package *)

(* ------------------------------------------------------------------ *)
(** ** String lemmas *)

Lemma str_app_nil (s : string) : (s ++ "")%string = s.
Proof. induction s as [|c s IH]; simpl; [reflexivity|]. rewrite IH. reflexivity. Qed.

Lemma str_app_assoc (a b c : string) : (a ++ b ++ c)%string = ((a ++ b) ++ c)%string.
Proof. induction a as [|x a IH]; simpl; [reflexivity|]. rewrite IH. reflexivity. Qed.

Lemma str_filter_app (p : ascii -> bool) (a b : string) :
  str_filter p (a ++ b) = (str_filter p a ++ str_filter p b)%string.
Proof.
  induction a as [|c a IH]; simpl; [reflexivity|].
  rewrite IH. destruct (p c); reflexivity.
Qed.

Lemma str_filter_idem (p : ascii -> bool) (s : string) :
  str_filter p (str_filter p s) = str_filter p s.
Proof.
  induction s as [|c s IH]; simpl; [reflexivity|].
  destruct (p c) eqn:E; simpl; [rewrite E, IH|]; [reflexivity|exact IH].
Qed.

Lemma join_empty_cons (x : string) (l : list string) :
  join "" (x :: l) = (x ++ join "" l)%string.
Proof. destruct l as [|y l]; simpl; [symmetry; apply str_app_nil|reflexivity]. Qed.

Lemma join_empty_app (l1 l2 : list string) :
  join "" (l1 ++ l2) = (join "" l1 ++ join "" l2)%string.
Proof.
  induction l1 as [|x l1 IH]; [reflexivity|].
  rewrite <- app_comm_cons, !join_empty_cons, IH. apply str_app_assoc.
Qed.

(* ------------------------------------------------------------------ *)
(** ** _split_rhs *)

Lemma split_rhs_go_nonempty (s : string) (depth : nat) (buf : string) :
  Forall (fun p => p <> ""%string) (split_rhs_go s depth buf).
Proof.
  revert depth buf. induction s as [|ch r IH]; intros depth buf; simpl.
  - destruct (String.eqb buf "") eqn:E; [constructor|].
    constructor; [|constructor]. intros H. subst. discriminate.
  - destruct (Ascii.eqb ch "("); [apply IH|].
    destruct (Ascii.eqb ch ")"); [apply IH|].
    destruct (Ascii.eqb ch "+" && Nat.eqb depth 0); [|apply IH].
    apply Forall_app. split; [|apply IH].
    destruct (String.eqb buf "") eqn:E; [constructor|].
    constructor; [|constructor]. intros H. subst. discriminate.
Qed.

Lemma split_rhs_go_chars (s : string) (depth : nat) (buf : string) :
  drop_plus (join "" (split_rhs_go s depth buf)) = (drop_plus buf ++ drop_plus s)%string.
Proof.
  unfold drop_plus.
  revert depth buf. induction s as [|ch r IH]; intros depth buf; simpl.
  - destruct (String.eqb buf "") eqn:E.
    + apply String.eqb_eq in E. subst. reflexivity.
    + simpl. symmetry. apply str_app_nil.
  - assert (Hbuf : forall d, drop_plus (join "" (split_rhs_go r d (buf ++ String ch "")))
              = (drop_plus buf ++ str_filter (fun c => negb (Ascii.eqb c "+")) (String ch r))%string).
    { intros d. unfold drop_plus. rewrite IH, str_filter_app, <- str_app_assoc. f_equal.
      simpl. destruct (negb (Ascii.eqb ch "+")); reflexivity. }
    unfold drop_plus in Hbuf.
    destruct (Ascii.eqb ch "(") eqn:E1; [apply Hbuf|].
    destruct (Ascii.eqb ch ")") eqn:E2; [apply Hbuf|].
    destruct (Ascii.eqb ch "+" && Nat.eqb depth 0) eqn:E3; [|apply Hbuf].
    apply andb_true_iff in E3 as [E3 _]. rewrite E3. simpl.
    rewrite join_empty_app, str_filter_app, IH. simpl.
    destruct (String.eqb buf "") eqn:E.
    + apply String.eqb_eq in E. subst. reflexivity.
    + reflexivity.
Qed.

Lemma split_rhs_go_no_plus (s : string) (depth : nat) (buf : string) :
  str_mem "+" s = false ->
  split_rhs_go s depth buf = if String.eqb (buf ++ s) "" then [] else [(buf ++ s)%string].
Proof.
  revert depth buf. induction s as [|ch r IH]; intros depth buf Hs; simpl.
  - rewrite str_app_nil. reflexivity.
  - simpl in Hs. apply orb_false_iff in Hs as [Hc Hr].
    assert (Happ : (buf ++ String ch r)%string = ((buf ++ String ch "") ++ r)%string).
    { rewrite <- str_app_assoc. reflexivity. }
    rewrite Happ.
    assert (Hp : Ascii.eqb ch "+" = false).
    { rewrite Ascii.eqb_sym. exact Hc. }
    rewrite Hp. simpl.
    destruct (Ascii.eqb ch "("); [apply IH; exact Hr|].
    destruct (Ascii.eqb ch ")"); apply IH; exact Hr.
Qed.

(* ------------------------------------------------------------------ *)
(** ** parse_recurrence: what an accepted text looks like *)

Lemma length_split_char (c : ascii) (s : string) :
  List.length (split_char c s) = S (count_char c s).
Proof.
  induction s as [|d r IH]; simpl; [reflexivity|].
  destruct (Ascii.eqb d c) eqn:E; simpl; [rewrite IH; reflexivity|].
  destruct (split_char c r) as [|x xs]; simpl in *; [discriminate|exact IH].
Qed.

Lemma count_char_filter (p : ascii -> bool) (c : ascii) (s : string) :
  p c = true -> count_char c (str_filter p s) = count_char c s.
Proof.
  intros Hc. induction s as [|d r IH]; simpl; [reflexivity|].
  destruct (p d) eqn:Ep; simpl.
  - destruct (Ascii.eqb d c); rewrite IH; reflexivity.
  - destruct (Ascii.eqb d c) eqn:E; [|exact IH].
    apply Ascii.eqb_eq in E. subst. congruence.
Qed.

Lemma NoDup_snoc {A} (l : list A) (a : A) :
  NoDup l -> ~ In a l -> NoDup (l ++ [a]).
Proof.
  induction l as [|x l IH]; simpl; intros Hn Hi.
  - constructor; [intros []|constructor].
  - inversion Hn as [|y l' Hx Hl]; subst. constructor.
    + rewrite in_app_iff. intros [H|[H|[]]]; [contradiction|]. subst. apply Hi. left. reflexivity.
    + apply IH; [exact Hl|]. intros H. apply Hi. right. exact H.
Qed.

Lemma check_vars_spec (raw acc vs : list string) :
  check_vars raw acc = Some vs -> NoDup acc ->
  Forall (fun v => is_valid_identifier v = true) acc ->
  NoDup vs /\ Forall (fun v => is_valid_identifier v = true) vs /\
  List.length vs = (List.length acc + List.length raw)%nat.
Proof.
  revert acc. induction raw as [|a raw IH]; simpl; intros acc H Hn Hv.
  - injection H as <-. rewrite Nat.add_0_r. auto.
  - destruct (is_valid_identifier a) eqn:Ea; simpl in H; [|discriminate].
    destruct (existsb (String.eqb a) acc) eqn:Ex; [discriminate|].
    destruct (IH _ H) as [H1 [H2 H3]].
    + apply NoDup_snoc; [exact Hn|]. intros Hi.
      assert (existsb (String.eqb a) acc = true) by
        (apply existsb_exists; exists a; split; [exact Hi|apply String.eqb_refl]).
      congruence.
    + apply Forall_app. split; [exact Hv|]. constructor; [exact Ea|constructor].
    + split; [exact H1|]. split; [exact H2|]. rewrite H3, length_app. simpl. lia.
Qed.

Lemma FunctionTerm_new_spec c f vs ss t :
  FunctionTerm_new c f vs ss = Some t ->
  t = mkFT c f vs ss /\ List.length vs = List.length ss.
Proof.
  unfold FunctionTerm_new. destruct (Nat.eqb (List.length vs) (List.length ss)) eqn:E;
    [|discriminate].
  intros H. injection H as <-. split; [reflexivity|]. apply Nat.eqb_eq. exact E.
Qed.

Lemma parse_terms_wf (ss : list string) (f : string) (vs : list string) (rt : list Term) :
  parse_terms ss f vs = Some rt -> Forall (term_wf f vs) rt.
Proof.
  revert rt. induction ss as [|s ss IH]; simpl; intros rt H.
  - injection H as <-. constructor.
  - destruct (parse_term s f vs) as [t|] eqn:Et; [|discriminate].
    destruct (parse_terms ss f vs) as [ts|]; [|discriminate].
    injection H as <-. constructor; [|apply IH; reflexivity].
    unfold parse_term in Et.
    destruct (parse_number s); [injection Et as <-; exact I|].
    destruct (term_match s) as [[[cs fn] args]|]; [|discriminate].
    destruct (negb (is_valid_identifier fn)); [discriminate|].
    destruct (negb (String.eqb fn f)); [discriminate|].
    destruct (negb _); [discriminate|].
    destruct (parse_shifts _ vs) as [sh|]; [|discriminate].
    destruct (FunctionTerm_new _ f vs sh) as [t'|] eqn:Ef; [|discriminate].
    injection Et as <-. apply FunctionTerm_new_spec in Ef as [-> Hl].
    simpl. auto.
Qed.

(** What [parse_raw] establishes about the text, the name, the variables and
    the raw terms. *)
Lemma parse_raw_spec (text f : string) (vs : list string) (raw : list Term) :
  parse_raw text = Some (f, vs, raw) ->
  count_char "=" text = 1%nat /\
  is_valid_identifier f = true /\ vs <> [] /\ NoDup vs /\
  Forall (fun v => is_valid_identifier v = true) vs /\
  Forall (term_wf f vs) raw.
Proof.
  unfold parse_raw. cbv zeta. intros H.
  destruct (String.eqb _ "") eqn:E0; [discriminate|].
  destruct (split_char "=" _) as [|l [|r [|x y]]] eqn:Es; try discriminate.
  destruct (String.eqb l "") eqn:El; [discriminate|].
  destruct (String.eqb r "") eqn:Er; [discriminate|].
  destruct (lhs_match l) as [[f' args]|]; [|discriminate].
  destruct (is_valid_identifier f') eqn:Ef; simpl in H; [|discriminate].
  destruct (Nat.eqb _ 0) eqn:En; [discriminate|].
  destruct (check_vars _ []) as [vl|] eqn:Ec; [|discriminate].
  destruct (check_vars_spec _ _ _ Ec (NoDup_nil _) (Forall_nil _)) as [H1 [H2 H3]].
  assert (Hcnt : count_char "=" text = 1%nat).
  { pose proof (length_split_char "=" (str_filter (fun c => negb (is_space c)) text)) as Hl.
    rewrite Es in Hl. simpl in Hl.
    rewrite count_char_filter in Hl by reflexivity. lia. }
  assert (Hne : vl <> []).
  { intros ->. simpl in H3. apply Nat.eqb_neq in En. lia. }
  destruct (Nat.eqb (List.length (filter _ (split_rhs r))) 0); [discriminate|].
  revert H. generalize (filter (fun t => negb (String.eqb t "")) (split_rhs r)).
  intros sm H.
  assert (Hw : f' = f /\ vl = vs /\
               ((exists rt, parse_terms sm f' vl = Some rt /\ raw = rt) \/
                exists v, raw = [CT v])).
  { destruct sm as [|s0 [|s1 ss]].
    - destruct (parse_terms [] f' vl) eqn:Et; [|discriminate].
      injection H as Ha Hb Hc. split; [exact Ha|]. split; [exact Hb|].
      left. exists l0. auto.
    - destruct (parse_number s0) as [v|].
      + injection H as Ha Hb Hc. split; [exact Ha|]. split; [exact Hb|].
        right. exists v. symmetry. exact Hc.
      + destruct (parse_terms [s0] f' vl) eqn:Et; [|discriminate].
        injection H as Ha Hb Hc. split; [exact Ha|]. split; [exact Hb|].
        left. exists l0. auto.
    - destruct (parse_terms (s0 :: s1 :: ss) f' vl) eqn:Et; [|discriminate].
      injection H as Ha Hb Hc. split; [exact Ha|]. split; [exact Hb|].
      left. exists l0. auto. }
  destruct Hw as [<- [<- Hw]].
  split; [exact Hcnt|]. split; [exact Ef|]. split; [exact Hne|].
  split; [exact H1|]. split; [exact H2|].
  destruct Hw as [[rt [Et ->]]|[v ->]].
  - apply parse_terms_wf in Et. exact Et.
  - repeat constructor.
Qed.

Lemma emit_functions_wf (m : list (list Q * Q)) (vs : list string) (f : string) ts :
  emit_functions m vs f = Some ts -> Forall (emitted_wf f vs) ts.
Proof.
  revert ts. induction m as [|[k c] m IH]; simpl; intros ts H.
  - injection H as <-. constructor.
  - destruct (Qltb (Qabs c) eps12) eqn:Ec; [apply IH; exact H|].
    destruct (FunctionTerm_new c f vs k) as [t|] eqn:Et; [|discriminate].
    destruct (emit_functions m vs f) as [ts'|]; [|discriminate].
    injection H as <-. constructor; [|apply IH; reflexivity].
    apply FunctionTerm_new_spec in Et as [-> Hl]. simpl.
    apply Qltb_false in Ec. auto.
Qed.

Lemma combine_terms_wf (raw : list Term) (vs : list string) (f : string) ts :
  combine_terms raw vs f = Some ts -> Forall (emitted_wf f vs) ts.
Proof.
  unfold combine_terms. destruct (combine_loop raw 0 []) as [cs m].
  destruct (emit_functions m vs f) as [ts'|] eqn:E; [|discriminate].
  intros H. injection H as <-. apply Forall_app. split; [|exact (emit_functions_wf _ _ _ _ E)].
  destruct (Qltb eps12 (Qabs cs)) eqn:Ec; [|constructor].
  apply Qltb_iff in Ec. repeat constructor. exact Ec.
Qed.





Lemma parse_recurrence_inv (text : string) (r : Recurrence) :
  parse_recurrence text = Some r ->
  exists f vs raw ts,
    parse_raw text = Some (f, vs, raw) /\ combine_terms raw vs f = Some ts /\
    r = mkRec (mkFT 1 f vs (repeat 0 (List.length vs))) ts.
Proof.
  unfold parse_recurrence.
  destruct (parse_raw text) as [[[f vs] raw]|]; [|discriminate].
  unfold FunctionTerm_new. rewrite repeat_length, Nat.eqb_refl.
  destruct (combine_terms raw vs f) as [ts|] eqn:Ec; [|discriminate].
  unfold Recurrence_new. simpl.
  destruct (existsb _ (repeat 0 (List.length vs))); [discriminate|].
  intros H. injection H as <-. exists f, vs, raw, ts. auto.
Qed.

(* ------------------------------------------------------------------ *)
(** ** Extra properties: _split_rhs and parse_recurrence *)

(** [_split_rhs] never returns an empty summand, and it only ever drops
    ['+'] characters: with the ['+'] characters removed, the concatenated
    summands are the input. *)
Theorem split_rhs_pieces (s : string) :
  Forall (fun p => p <> ""%string) (split_rhs s) /\
  drop_plus (join "" (split_rhs s)) = drop_plus s.
Proof.
  split; [apply split_rhs_go_nonempty|].
  unfold split_rhs. rewrite split_rhs_go_chars. reflexivity.
Qed.

(** A non-empty RHS text without a ['+'] is a single summand: in particular
    a ['-'] never separates two summands. *)
Theorem split_rhs_no_plus (s : string) :
  str_mem "+" s = false -> s <> ""%string -> split_rhs s = [s].
Proof.
  intros Hs Hne. unfold split_rhs. rewrite split_rhs_go_no_plus by exact Hs.
  simpl. destruct (String.eqb s "") eqn:E; [|reflexivity].
  apply String.eqb_eq in E. contradiction.
Qed.

Lemma split_rhs_no_plus_witness :
  split_rhs "2*T(n-1)-T(n-2)" = ["2*T(n-1)-T(n-2)"%string].
Proof. apply split_rhs_no_plus; [reflexivity|discriminate]. Defined.

(** [parse_recurrence] removes all whitespace first: two texts that differ
    only in whitespace parse to the same result (or both fail). *)
Theorem parse_recurrence_whitespace (s1 s2 : string) :
  str_filter (fun c => negb (is_space c)) s1 = str_filter (fun c => negb (is_space c)) s2 ->
  parse_recurrence s1 = parse_recurrence s2.
Proof.
  intros H. unfold parse_recurrence, parse_raw. rewrite H. reflexivity.
Qed.

Lemma parse_recurrence_whitespace_witness :
  parse_recurrence " T ( n ) =  T(n - 1) + 2 * T(n-2) " =
  parse_recurrence "T(n)=T(n-1)+2*T(n-2)".
Proof. apply parse_recurrence_whitespace. vm_compute. reflexivity. Defined.

(** An accepted text contains exactly one ['=']. *)
Theorem parse_recurrence_one_equals (text : string) (r : Recurrence) :
  parse_recurrence text = Some r -> count_char "=" text = 1%nat.
Proof.
  intros H. destruct (parse_recurrence_inv text r H) as (f & vs & raw & ts & Hr & _).
  exact (proj1 (parse_raw_spec text f vs raw Hr)).
Qed.

Lemma parse_recurrence_one_equals_witness :
  count_char "=" "T(n) = T(n-1) + 1" = 1%nat.
Proof.
  destruct (parse_recurrence "T(n) = T(n-1) + 1") as [r|] eqn:E.
  - exact (parse_recurrence_one_equals _ r E).
  - vm_compute in E. discriminate.
Defined.

(** The LHS of a parse result: coefficient [1], all shifts [0], a valid
    function name and a non-empty list of distinct valid variable names. *)
Theorem parse_recurrence_lhs (text : string) (r : Recurrence) :
  parse_recurrence text = Some r ->
  coef (lhs r) = 1 /\ shifts (lhs r) = repeat 0 (List.length (vars (lhs r))) /\
  is_valid_identifier (func (lhs r)) = true /\
  vars (lhs r) <> [] /\ NoDup (vars (lhs r)) /\
  Forall (fun v => is_valid_identifier v = true) (vars (lhs r)).
Proof.
  intros H. destruct (parse_recurrence_inv text r H) as (f & vs & raw & ts & Hr & _ & ->).
  destruct (parse_raw_spec text f vs raw Hr) as (_ & H1 & H2 & H3 & H4 & _).
  simpl. auto 7.
Qed.

Lemma parse_recurrence_lhs_witness :
  exists r, parse_recurrence "D(m, n) = D(m-1, n) + D(m, n-1)" = Some r /\
  coef (lhs r) = 1 /\ shifts (lhs r) = repeat 0 (List.length (vars (lhs r))) /\
  is_valid_identifier (func (lhs r)) = true /\
  vars (lhs r) <> [] /\ NoDup (vars (lhs r)) /\
  Forall (fun v => is_valid_identifier v = true) (vars (lhs r)).
Proof.
  eexists. split; [vm_compute; reflexivity|].
  apply (parse_recurrence_lhs "D(m, n) = D(m-1, n) + D(m, n-1)").
  vm_compute. reflexivity.
Defined.



(* ------------------------------------------------------------------ *)
(** ** Extra properties: snap_int *)

Lemma round_half_even_compat (p q : Q) : p == q -> round_half_even p = round_half_even q.
Proof.
  intros H. unfold round_half_even, Qltb.
  rewrite (Qfloor_comp p q H).
  rewrite (Qle_bool_compat (1 # 2) (1 # 2) (p - inject_Z (Qfloor q)) (q - inject_Z (Qfloor q)))
    by (reflexivity || (rewrite H; reflexivity)).
  rewrite (Qle_bool_compat (p - inject_Z (Qfloor q)) (q - inject_Z (Qfloor q)) (1 # 2) (1 # 2))
    by (reflexivity || (rewrite H; reflexivity)).
  reflexivity.
Qed.

Lemma round_half_even_Z (m : Z) : round_half_even (inject_Z m) = m.
Proof.
  apply round_half_even_near.
  unfold Qabs, Qminus, Qplus, Qopp, Qlt, inject_Z. simpl. lia.
Qed.

Lemma round6_million (m : Z) : round6 (m # 1000000) = m # 1000000.
Proof.
  unfold round6. rewrite (round_half_even_compat _ (inject_Z m)).
  - rewrite round_half_even_Z. reflexivity.
  - apply Qmake_million.
Qed.

Lemma py_int_Z (x : Q) (k : Z) : x == inject_Z k -> py_int x = k.
Proof.
  intros H. unfold py_int. destruct (Qle_bool 0 x).
  - rewrite (Qfloor_comp x (inject_Z k) H). apply Qfloor_Z.
  - rewrite (Qceiling_comp x (inject_Z k) H). apply Qceiling_Z.
Qed.

Lemma snap_int_Z (k : Z) : snap_int (inject_Z k) = inject_Z k.
Proof.
  assert (Hr : round6 (inject_Z k) = (k * 1000000)%Z # 1000000).
  { unfold round6. rewrite (round_half_even_compat _ (inject_Z (k * 1000000))).
    - rewrite round_half_even_Z. reflexivity.
    - rewrite inject_Z_mult. reflexivity. }
  assert (Hq : (k * 1000000)%Z # 1000000 == inject_Z k).
  { unfold Qeq, inject_Z. simpl. lia. }
  unfold snap_int. rewrite Hr, (py_int_Z _ k Hq).
  replace (Qeq_bool _ _) with true by (symmetry; apply Qeq_bool_iff; exact Hq).
  reflexivity.
Qed.

(** [snap_int] is idempotent, and it returns every integer unchanged. *)
Theorem snap_int_idempotent (v : Q) :
  snap_int (snap_int v) = snap_int v /\ (forall k : Z, snap_int (inject_Z k) = inject_Z k).
Proof.
  split; [|exact snap_int_Z].
  assert (Hr : exists m, round6 v = m # 1000000) by (eexists; reflexivity).
  destruct Hr as [m Hm].
  unfold snap_int at 2 3. cbv beta zeta. rewrite Hm.
  destruct (Qeq_bool (m # 1000000) (inject_Z (py_int (m # 1000000)))) eqn:E.
  - apply snap_int_Z.
  - unfold snap_int. rewrite round6_million. cbv zeta. rewrite E. reflexivity.
Qed.

(* ------------------------------------------------------------------ *)
(** ** Extra properties: solve_recurrence and find_root *)

Lemma solve_terms_shape xpow brentq (cs ds : list Q) :
  exists q, solve_terms xpow brentq cs ds = Fin q /\
    (q = 1 \/ q = PENALTY \/
     exists b r, find_bracket (g_rec xpow cs ds) 50 2 = Some b /\
                 brentq (g_rec xpow cs ds) 1 b = Converged r /\ q = snap_int r).
Proof.
  unfold solve_terms. cbv zeta.
  destruct cs as [|c cs]; [eauto|].
  destruct (existsb _ ds); [eauto|].
  destruct (find_bracket _ 50 2) as [b|] eqn:Eb;
    [destruct (brentq _ 1 b) as [r| |] eqn:Er|];
    destruct (g_rec _ _ _ 1) as [g1|];
    try destruct (Qltb (Qabs g1) eps12); try destruct (Qltb g1 0); eauto 10.
Qed.


Lemma func_terms_In (ts : list Term) (t : FunctionTerm) :
  In (FT t) ts -> In t (func_terms ts).
Proof.
  induction ts as [|[t'|c] ts IH]; simpl; [tauto| |].
  - intros [H|H]; [injection H as ->; left; reflexivity|right; exact (IH H)].
  - intros [H|H]; [discriminate|exact (IH H)].
Qed.

Lemma func_terms_all (ts : list Term) (P : FunctionTerm -> Prop) :
  (forall t, In (FT t) ts -> P t) -> Forall P (func_terms ts).
Proof.
  induction ts as [|[t|c] ts IH]; simpl; intros H; [constructor| |].
  - constructor; [apply H; left; reflexivity|apply IH; intros t' Ht; apply H; right; exact Ht].
  - apply IH. intros t' Ht. apply H. right. exact Ht.
Qed.

Lemma opt_map_first_delta (fts : list FunctionTerm) :
  Forall (fun t => shifts t <> []) fts -> exists ds, opt_map first_delta fts = Some ds.
Proof.
  induction 1 as [|t fts Ht _ [ds IH]]; [exists []; reflexivity|].
  change (opt_map first_delta (t :: fts)) with
    (match first_delta t, opt_map first_delta fts with
     | Some y, Some ys => Some (y :: ys) | _, _ => None end).
  rewrite IH. unfold first_delta. destruct (shifts t) as [|s ss]; [congruence|]. eauto.
Qed.

Lemma opt_map_In {A B} (f : A -> option B) (l : list A) (ys : list B) (x : A) (y : B) :
  opt_map f l = Some ys -> In x l -> f x = Some y -> In y ys.
Proof.
  revert ys; induction l as [|a l IH]; simpl; intros ys H Hx Hf; [contradiction|].
  destruct (f a) as [b|] eqn:Ea; [|discriminate].
  destruct (opt_map f l) as [bs|]; [|discriminate].
  injection H as <-. destruct Hx as [->|Hx].
  - left. congruence.
  - right. exact (IH bs eq_refl Hx Hf).
Qed.

(** [solve_recurrence] never returns infinity: its value is [1.0], the
    sentinel [PENALTY], or [snap_int] of the root that [brentq] returned on
    the bracket [(1, b)] found by the doubling loop. *)
Theorem solve_recurrence_finite xpow brentq (rec : Recurrence) (x : flt) :
  solve_recurrence xpow brentq rec = Some x ->
  exists q, x = Fin q /\
    (q = 1 \/ q = PENALTY \/
     exists ds b r, opt_map first_delta (func_terms (rhs rec)) = Some ds /\
       find_bracket (g_rec xpow (rec_coefs rec) ds) 50 2 = Some b /\
       brentq (g_rec xpow (rec_coefs rec) ds) 1 b = Converged r /\ q = snap_int r).
Proof.
  unfold solve_recurrence. destruct (vars (lhs rec)) as [|v [|v' vs]]; try discriminate.
  cbv zeta. destruct (opt_map first_delta _) as [ds|] eqn:Ed; [|discriminate].
  intros H. injection H as <-.
  destruct (solve_terms_shape xpow brentq (map coef (func_terms (rhs rec))) ds)
    as (q & Hq & [H1|[H2|(b & r & Hb & Hr & H3)]]); exists q; (split; [exact Hq|]); auto.
  right. right. exists ds, b, r. auto.
Qed.

Lemma solve_recurrence_finite_witness :
  exists q, Fin (1618034 # 1000000) = Fin q /\
    (q = 1 \/ q = PENALTY \/
     exists ds b r, opt_map first_delta (func_terms (rhs fib_rec)) = Some ds /\
       find_bracket (g_rec exact_xpow (rec_coefs fib_rec) ds) 50 2 = Some b /\
       brent_at phi_double (g_rec exact_xpow (rec_coefs fib_rec) ds) 1 b = Converged r /\
       q = snap_int r).
Proof.
  apply (solve_recurrence_finite exact_xpow (brent_at phi_double) fib_rec).
  vm_compute. reflexivity.
Defined.


(** On a recurrence returned by [parse_recurrence], [solve_recurrence]
    raises exactly when the LHS has more than one variable: the
    [IndexError] of [term.shifts[0]] never happens. *)
Theorem solve_recurrence_parsed_error xpow brentq (text : string) (r : Recurrence) :
  parse_recurrence text = Some r ->
  (solve_recurrence xpow brentq r = None <-> List.length (vars (lhs r)) <> 1%nat).
Proof.
  intros H. destruct (parse_recurrence_inv text r H) as (f & vs & raw & ts & _ & Hc & ->).
  pose proof (combine_terms_wf raw vs f ts Hc) as Hw. simpl.
  unfold solve_recurrence. simpl.
  destruct vs as [|v [|v' vs]]; simpl.
  - split; [intros _; discriminate|reflexivity].
  - assert (Hs : Forall (fun t => shifts t <> []) (func_terms ts)).
    { apply func_terms_all. intros t Ht.
      apply (proj1 (Forall_forall _ _) Hw) in Ht. simpl in Ht.
      destruct Ht as (_ & _ & Hl & _). destruct (shifts t); [discriminate|congruence]. }
    destruct (opt_map_first_delta _ Hs) as [ds Hds]. rewrite Hds.
    split; [discriminate|intros Hn; contradiction Hn; reflexivity].
  - split; [intros _; discriminate|reflexivity].
Qed.

Lemma solve_recurrence_parsed_error_witness :
  solve_recurrence exact_xpow (brent_at 2) (fib_rec) = None <-> List.length (vars (lhs fib_rec)) <> 1%nat.
Proof.
  apply (solve_recurrence_parsed_error exact_xpow (brent_at 2) fib_text). apply parse_fib.
Defined.

(** Constants in the RHS do not matter to [solve_recurrence]: removing one
    leaves the result unchanged, and an RHS of constants only gives [1.0]
    for a single variable. *)
Theorem solve_recurrence_constants_ignored xpow brentq (l : FunctionTerm) (ts1 ts2 : list Term) (c : Q) :
  solve_recurrence xpow brentq (mkRec l (ts1 ++ CT c :: ts2)) =
  solve_recurrence xpow brentq (mkRec l (ts1 ++ ts2)) /\
  (forall v cs, vars l = [v] -> solve_recurrence xpow brentq (mkRec l (map CT cs)) = Some (Fin 1)).
Proof.
  split.
  - unfold solve_recurrence. simpl. rewrite !func_terms_app. reflexivity.
  - intros v cs Hv. unfold solve_recurrence. simpl. rewrite Hv.
    assert (Hf : func_terms (map CT cs) = []) by (induction cs; simpl; auto).
    rewrite Hf. reflexivity.
Qed.

Lemma solve_recurrence_constants_ignored_witness :
  solve_recurrence exact_xpow (brent_at 2) (mkRec (lhs fib_rec) (map CT [3; 4])) = Some (Fin 1).
Proof.
  apply (proj2 (solve_recurrence_constants_ignored exact_xpow (brent_at 2) (lhs fib_rec) [] [] 0) "n"%string).
  reflexivity.
Defined.

(** A function term whose first shift is [>= 0] (a [T(n)] or [T(n+k)] on
    the RHS) makes [solve_recurrence] return the sentinel [PENALTY],
    whatever the other terms are. *)
Theorem solve_recurrence_nonneg_shift xpow brentq (r : Recurrence) (v : string) (t : FunctionTerm) (s : Q) (ss : list Q) :
  vars (lhs r) = [v] ->
  (forall t', In (FT t') (rhs r) -> shifts t' <> []) ->
  In (FT t) (rhs r) -> shifts t = s :: ss -> 0 <= s ->
  solve_recurrence xpow brentq r = Some (Fin PENALTY).
Proof.
  intros Hv Hall Ht Hs H0.
  destruct (opt_map_first_delta _ (func_terms_all _ _ Hall)) as [ds Hds].
  rewrite (solve_recurrence_terms xpow brentq r v ds Hv Hds).
  apply func_terms_In in Ht.
  assert (Hin : In (- s) ds).
  { apply (opt_map_In first_delta _ _ t _ Hds Ht). unfold first_delta. rewrite Hs. reflexivity. }
  assert (He : existsb (fun d => Qle_bool d 0) ds = true).
  { apply existsb_exists. exists (- s). split; [exact Hin|].
    apply Qle_bool_iff. lra. }
  unfold solve_terms, rec_coefs.
  destruct (func_terms (rhs r)) as [|t0 fts]; [contradiction|].
  simpl map. rewrite He. reflexivity.
Qed.

Lemma solve_recurrence_nonneg_shift_witness :
  solve_recurrence exact_xpow (brent_at 2)
    (mkRec (mkFT 1 "T" ["n"%string] [0])
           [FT (mkFT 1 "T" ["n"%string] [-1]); FT (mkFT 1 "T" ["n"%string] [1])])
  = Some (Fin PENALTY).
Proof.
  apply (solve_recurrence_nonneg_shift exact_xpow (brent_at 2) _ "n"%string
           (mkFT 1 "T" ["n"%string] [1]) 1 []).
  - reflexivity.
  - intros t' H. simpl in H. destruct H as [H|[H|[]]]; injection H as <-; discriminate.
  - simpl. right. left. reflexivity.
  - reflexivity.
  - unfold Qle. simpl. lia.
Defined.

(** [find_root] returns infinity exactly on an empty list of deltas. *)
Theorem find_root_inf_iff xpow brentq newton flog fexp (d : list Q) (x0 : option flt) :
  find_root xpow brentq newton flog fexp d x0 = Some PInf <-> d = [].
Proof.
  split; [|intros ->; reflexivity].
  destruct d as [|a [|b l]]; [reflexivity|discriminate|].
  unfold find_root. cbv zeta.
  destruct (Qle_bool _ 0); [discriminate|].
  repeat match goal with
         | |- context [match ?e with _ => _ end] => destruct e
         | |- context [if ?e then _ else _] => destruct e
         end; discriminate.
Qed.

(* ------------------------------------------------------------------ *)
(** ** Extra properties: the JSON report of solve_recurrence.py *)

Lemma solve_recurrence_some_inv xpow brentq (rec : Recurrence) (x : flt) :
  solve_recurrence xpow brentq rec = Some x ->
  (exists v, vars (lhs rec) = [v]) /\ exists q, x = Fin q.
Proof.
  unfold solve_recurrence. destruct (vars (lhs rec)) as [|v [|v' vs]]; try discriminate.
  cbv zeta. destruct (opt_map first_delta _) as [ds|]; [|discriminate].
  intros H. injection H as <-. split; [eauto|].
  destruct (solve_terms_shape xpow brentq (map coef (func_terms (rhs rec))) ds) as (q & Hq & _).
  eauto.
Qed.

(** The JSON report of a solved recurrence without [-v]: building it never
    raises, it never says ["divergent": true], ["ok"] is true exactly when
    the root is below [PENALTY], and an ["error"] is present exactly when it
    is not. *)
Theorem output_json_solved xpow brentq (rec : Recurrence) (x : flt) :
  solve_recurrence xpow brentq rec = Some x ->
  exists q d, x = Fin q /\ output_json rec x false = Some d /\
    dict_get d "ok" = Some (JBool (Qltb q PENALTY)) /\
    dict_get d "divergent" = (if Qltb q PENALTY then Some (JBool false) else None) /\
    dict_get d "error" =
      (if Qltb q PENALTY then None
       else Some (JStr "No valid root found (non-positive shifts)")).
Proof.
  intros H. destruct (solve_recurrence_some_inv xpow brentq rec x H) as [[v Hv] [q ->]].
  unfold output_json, format_asymptotics. rewrite Hv. cbv zeta.
  unfold Qltb. destruct (Qle_bool PENALTY q) eqn:E; simpl negb; cbv iota;
    [|destruct (Qeq_bool q 1)];
    eexists q, _; (split; [reflexivity|]); (split; [reflexivity|]);
    simpl; rewrite E; auto.
Qed.

Lemma output_json_solved_witness :
  exists q d, Fin (1618034 # 1000000) = Fin q /\
    output_json fib_rec (Fin (1618034 # 1000000)) false = Some d /\
    dict_get d "ok" = Some (JBool (Qltb q PENALTY)) /\
    dict_get d "divergent" = (if Qltb q PENALTY then Some (JBool false) else None) /\
    dict_get d "error" =
      (if Qltb q PENALTY then None
       else Some (JStr "No valid root found (non-positive shifts)")).
Proof.
  apply (output_json_solved exact_xpow (brent_at phi_double)). vm_compute. reflexivity.
Defined.

(** Without [-v], a divergent root (infinity) is reported with
    ["ok": true] and ["divergent": true], without ["error"] or ["root"], for
    any recurrence: this branch never reads the variables. *)
Theorem output_json_divergent (rec : Recurrence) :
  exists d, output_json rec PInf false = Some d /\
    dict_get d "ok" = Some (JBool true) /\ dict_get d "divergent" = Some (JBool true) /\
    dict_get d "error" = None /\ dict_get d "root" = None.
Proof.
  unfold output_json. cbv zeta. eexists. split; [reflexivity|].
  simpl; auto.
Qed.

(** The plain-text report of a solved recurrence (without [-v]) is a
    single line and agrees with the JSON report: it is the JSON
    ["asymptotics"] string when there is one, and the no-valid-root line
    otherwise. *)
Theorem output_text_agrees_json xpow brentq float_str (rec : Recurrence) (x : flt) :
  solve_recurrence xpow brentq rec = Some x ->
  exists d, output_json rec x false = Some d /\
    output_text float_str rec x false =
      (match dict_get d "asymptotics" with
       | Some (JStr a) => [a]
       | _ => ["Result: No valid root (check for non-positive shifts)"%string]
       end, true).
Proof.
  intros H. destruct (solve_recurrence_some_inv xpow brentq rec x H) as [[v Hv] [q ->]].
  unfold output_json, output_text, format_asymptotics. rewrite Hv. cbv zeta.
  destruct (Qle_bool PENALTY q); cbv iota; [|destruct (Qeq_bool q 1)];
    eexists; (split; [reflexivity|]); reflexivity.
Qed.

Lemma output_text_agrees_json_witness :
  exists d, output_json fib_rec (Fin (1618034 # 1000000)) false = Some d /\
    output_text (fun _ => "1.618034"%string) fib_rec (Fin (1618034 # 1000000)) false =
      (match dict_get d "asymptotics" with
       | Some (JStr a) => [a]
       | _ => ["Result: No valid root (check for non-positive shifts)"%string]
       end, true).
Proof.
  apply (output_text_agrees_json exact_xpow (brent_at phi_double)). vm_compute. reflexivity.
Defined.

